(** * pcurses: the modal input controller and its filter, search, sort,
      exec and macro handlers

    A shallow embedding of [src/filter.cpp] and [src/src/program.cpp].
    Vectors are lists, iterators are indices into them, [std::string] is
    [string].  The [Program] object and the static [Filter::attrlist] are
    one record that every handler takes and returns. *)

From Stdlib Require Import Strings.String Strings.Ascii Lists.List.
From Stdlib Require Import Arith.PeanoNat ZArith.ZArith Bool.Bool micromega.Lia.
From Stdlib Require Import Sorting.Sorted Sorting.Permutation.
From Stdlib Require Import Structures.OrderedTypeEx.
Import ListNotations.

Local Open Scope string_scope.
Local Open Scope list_scope.
Local Open Scope nat_scope.

(* ================================================================== *)
(** ** Strings *)

Module Str.

(** [boost::to_lower] on one character (classic locale). *)
Definition to_lower_char (c : ascii) : ascii :=
    let n := nat_of_ascii c in
    if ((65 <=? n) && (n <=? 90))%nat then ascii_of_nat (n + 32) else c.

Fixpoint to_lower (s : string) : string :=
    match s with
    | EmptyString => EmptyString
    | String c t => String (to_lower_char c) (to_lower t)
    end.

(** [std::string::find(needle)]: the first position at which [needle]
      occurs, [None] for [npos]. *)
Fixpoint find (needle s : string) : option nat :=
    if String.prefix needle s then Some 0
    else match s with
         | EmptyString => None
         | String _ t => option_map S (find needle t)
         end.

Arguments find : simpl never.

Fixpoint drop (n : nat) (s : string) : string :=
    match n, s with
    | S k, String _ t => drop k t
    | _, _ => s
    end.

(** [std::string::replace(pos, len, r)] for [pos <= length s]. *)
Fixpoint replace (pos len : nat) (r s : string) : string :=
    match pos, s with
    | S k, String c t => String c (replace k len r t)
    | _, _ => r ++ drop len s
    end.

(** The character class [[A-Za-z]]. *)
Definition is_alpha (c : ascii) : bool :=
    let n := nat_of_ascii c in
    (((65 <=? n) && (n <=? 90)) || ((97 <=? n) && (n <=? 122)))%nat.

Definition is_digit (c : ascii) : bool :=
    let n := nat_of_ascii c in ((48 <=? n) && (n <=? 57))%nat.

Definition is_alnum (c : ascii) : bool := is_alpha c || is_digit c.

Fixpoint forallb (f : ascii -> bool) (s : string) : bool :=
    match s with
    | EmptyString => true
    | String c t => f c && forallb f t
    end.

(** Non-empty and alphanumeric throughout. *)
Definition alnum_only (s : string) : bool :=
    negb (String.length s =? 0)%nat && forallb is_alnum s.

(** The longest prefix of letters, and what follows it. *)
Fixpoint span_alpha (s : string) : string * string :=
    match s with
    | EmptyString => (EmptyString, EmptyString)
    | String c t =>
        if is_alpha c
        then let (a, b) := span_alpha t in (String c a, b)
        else (EmptyString, s)
    end.

(** [boost::trim]: strip leading and trailing white space. *)
Definition is_space (c : ascii) : bool :=
    let n := nat_of_ascii c in ((n =? 32) || ((9 <=? n) && (n <=? 13)))%nat.

Fixpoint trim_left (s : string) : string :=
    match s with
    | String c t => if is_space c then trim_left t else s
    | EmptyString => EmptyString
    end.

Fixpoint trim_right (s : string) : string :=
    match s with
    | EmptyString => EmptyString
    | String c t =>
        match trim_right t with
        | EmptyString => if is_space c then EmptyString else String c EmptyString
        | t' => String c t'
        end
    end.

Definition trim (s : string) : string := trim_right (trim_left s).

(** [boost::split(strs, s, is_any_of(sep))]: always at least one part. *)
Fixpoint split (sep : ascii) (s : string) : list string :=
    match s with
    | EmptyString => [EmptyString]
    | String c t =>
        if Ascii.eqb c sep then EmptyString :: split sep t
        else match split sep t with
             | p :: ps => String c p :: ps
             | [] => [String c EmptyString]
             end
    end.

End Str.

(* ================================================================== *)
(** ** Attributes and packages *)

(** Modelled from the spec: the attribute enumeration and
    [AttributeInfo::chartoattr] are declared in attributeinfo.h, which is
    not among the sources.  The constructors are the attributes the
    sources name, closed by the sentinel [A_NONE]. *)
Inductive AttributeEnum : Type :=
| A_NAME | A_DESC | A_INSTALLSTATE | A_NONE.

Definition attr_eqb (a b : AttributeEnum) : bool :=
  match a, b with
  | A_NAME, A_NAME | A_DESC, A_DESC
  | A_INSTALLSTATE, A_INSTALLSTATE | A_NONE, A_NONE => true
  | _, _ => false
  end.

(** [AttributeInfo::chartoattr] and [attrtochar], parameters of the
    development. *)
Class AttributeInfo : Type := {
  chartoattr : ascii -> AttributeEnum;
  attrtochar : AttributeEnum -> ascii
}.

(** Modelled from the spec: class [Package] is not among the sources.  A
    value stands for a [Package *]: [pkg_addr] is the address, the other
    fields are what [getattr] returns.  Equality of pointers is equality
    of these values. *)
Record Package : Type := mkPackage {
  pkg_addr : nat;
  pkg_name : string;
  pkg_desc : string;
  pkg_installstate : string
}.

Definition getattr (a : Package) (attr : AttributeEnum) : string :=
  match attr with
  | A_NAME => pkg_name a
  | A_DESC => pkg_desc a
  | A_INSTALLSTATE => pkg_installstate a
  | A_NONE => EmptyString
  end.

Definition getname (a : Package) : string := getattr a A_NAME.

Definition Package_eqb (a b : Package) : bool :=
  (pkg_addr a =? pkg_addr b)%nat && String.eqb (pkg_name a) (pkg_name b)
  && String.eqb (pkg_desc a) (pkg_desc b)
  && String.eqb (pkg_installstate a) (pkg_installstate b).

(* ================================================================== *)
(** ** The regular expression library *)

(** boost::xpressive as the handlers use it.  [compile s] is
    [sregex::compile(s)] and [compile_icase s] is
    [sregex::compile(s, icase)], [None] when they throw [regex_error];
    [resimple] is the pattern [filterpackages] declares under that
    name, the value of [sregex::compile("[:alnum:]+")]. *)
Class Xpressive : Type := {
  sregex : Type;
  compile : string -> option sregex;
  compile_icase : string -> option sregex;
  regex_match : string -> sregex -> bool;
  regex_search : string -> sregex -> bool;
  resimple : sregex;
  resimple_compiled : compile "[:alnum:]+" = Some resimple
}.

(* ================================================================== *)
(** ** filter.cpp *)

Module Filter.

(** [Filter::clearattrs]: the value of [attrlist] afterwards. *)
Definition clearattrs : list AttributeEnum := [A_NAME; A_DESC].

Definition mem (attr : AttributeEnum) (l : list AttributeEnum) : bool :=
    existsb (attr_eqb attr) l.

(** The loop of [Filter::setattrs], [acc] being [attrlist]. *)
Fixpoint setattrs_loop `{AttributeInfo} (s : string)
      (acc : list AttributeEnum) : list AttributeEnum :=
    match s with
    | EmptyString => acc
    | String c t =>
        let attr := chartoattr c in
        if attr_eqb attr A_NONE then setattrs_loop t acc
        else if mem attr acc then setattrs_loop t acc
        else setattrs_loop t (acc ++ [attr])
    end.

Definition setattrs `{AttributeInfo} (s : string) : list AttributeEnum :=
    setattrs_loop s [].

(** The [found] flag of [Filter::matches] after its loop. *)
Definition found_in (attrlist : list AttributeEnum) (a : Package)
      (lneedle : string) : bool :=
    fold_left
      (fun found attr =>
         found ||
         match Str.find lneedle (Str.to_lower (getattr a attr)) with
         | Some _ => true
         | None => false
         end)
      attrlist false.

(** [Filter::matches]: returns [!found]. *)
Definition matches (attrlist : list AttributeEnum) (a : Package)
      (needle : string) : bool :=
    negb (found_in attrlist a (Str.to_lower needle)).

Definition found_re `{Xpressive} (attrlist : list AttributeEnum)
      (a : Package) (needle : sregex) : bool :=
    fold_left
      (fun found attr => found || regex_search (getattr a attr) needle)
      attrlist false.

(** [Filter::matchesre]: returns [!found]. *)
Definition matchesre `{Xpressive} (attrlist : list AttributeEnum)
      (a : Package) (needle : sregex) : bool :=
    negb (found_re attrlist a needle).

(** [Filter::cmp]: compares the names. *)
Definition cmp (lhs rhs : Package) : bool :=
    String.ltb (getname lhs) (getname rhs).

End Filter.

(* ================================================================== *)
(** ** The Filter interface program.cpp is written against *)

(** program.cpp calls [Filter::notmatches] and [Filter::notmatchesre],
    binds [Filter::cmp] to three arguments, and treats a true
    [Filter::matches] as a hit (the branch taken when [find_if] reaches
    the end is commented "not found, do nothing").  filter.cpp as listed
    above declares no [notmatches], gives [cmp] two parameters and
    returns [!found] from [matches]: it is an earlier state of the class
    and program.cpp cannot be built against it.  The members
    program.cpp calls are therefore modelled here.  The loops are those
    of filter.cpp; what filter.cpp has under the names [matches] and
    [matchesre] is what the spec describes as the exclusion predicates,
    the later [notmatches] and [notmatchesre]. *)
Module FilterH.

(** Modelled from the spec: [Filter::matches] as [searchpackages] and a
    negated filter use it, true iff some active attribute contains the
    needle, both lower-cased ("found = include"): the [found] flag of
    the loop of filter.cpp. *)
Definition matches (attrlist : list AttributeEnum) (a : Package)
      (needle : string) : bool :=
    Filter.found_in attrlist a (Str.to_lower needle).

(** Modelled from the spec: [Filter::notmatches], the spec's
    [excludesSubstring], "true iff none of the active attributes contain
    needle": the function filter.cpp has under the name [matches]. *)
Definition notmatches (attrlist : list AttributeEnum) (a : Package)
      (needle : string) : bool :=
    Filter.matches attrlist a needle.

(** Modelled from the spec: [Filter::matchesre], the negated counterpart
    of [excludesPattern], true iff the pattern is found in some active
    attribute: the [found] flag of the loop of filter.cpp. *)
Definition matchesre `{Xpressive} (attrlist : list AttributeEnum)
      (a : Package) (needle : sregex) : bool :=
    Filter.found_re attrlist a needle.

(** Modelled from the spec: [Filter::notmatchesre], the spec's
    [excludesPattern], "same semantics using a compiled case-insensitive
    pattern": the function filter.cpp has under the name [matchesre]. *)
Definition notmatchesre `{Xpressive} (attrlist : list AttributeEnum)
      (a : Package) (needle : sregex) : bool :=
    Filter.matchesre attrlist a needle.

(** Modelled from the spec: [Filter::cmp] with the attribute as its
    third parameter, the spec's [compareByAttribute], "lexicographic
    string comparison on the given attribute's text". *)
Definition cmp (lhs rhs : Package) (attr : AttributeEnum) : bool :=
    String.ltb (getattr lhs attr) (getattr rhs attr).

End FilterH.

(* ================================================================== *)
(** ** The state of the program *)

Inductive FilterOperationEnum : Type :=
| OP_FILTER | OP_SORT | OP_SEARCH | OP_COLORCODE | OP_EXEC | OP_MACRO | OP_NONE.

Inductive ModeEnum : Type := MODE_STANDARD | MODE_INPUT | MODE_HELP.

(** Which of the two list boxes [focused_pane] points to. *)
Inductive FrameEnum : Type := FE_LIST | FE_QUEUE.

(** Modelled from the spec: class [History] is not among the sources: an
    append-only sequence of submitted strings and a browse cursor;
    [his_pos = length his_v] is the position past the end. *)
Record History : Type := mkHistory { his_v : list string; his_pos : nat }.

Module His.
Definition add (s : string) (h : History) : History :=
    {| his_v := his_v h ++ [s]; his_pos := his_pos h |}.
Definition reset (h : History) : History :=
    {| his_v := his_v h; his_pos := List.length (his_v h) |}.
Definition empty (h : History) : bool :=
    match his_v h with [] => true | _ => false end.
Definition current (h : History) : string := nth (his_pos h) (his_v h) "".
(** One step towards the older entries, clamped at the oldest. *)
Definition moveback (h : History) : History :=
    {| his_v := his_v h; his_pos := Nat.pred (his_pos h) |}.
(** One step towards the newer entries, clamped past the end. *)
Definition moveforward (h : History) : History :=
    {| his_v := his_v h;
       his_pos := Nat.min (S (his_pos h)) (List.length (his_v h)) |}.
End His.

(** Modelled from the spec: class [InputBuffer] is not among the sources:
    a text and a cursor position in it. *)
Record InputBuffer : Type := mkInputBuffer { contents : string; pos : nat }.

Module Buf.
Definition clear : InputBuffer := {| contents := ""; pos := 0 |}.
Definition set (s : string) : InputBuffer :=
    {| contents := s; pos := String.length s |}.
Definition insert (c : ascii) (b : InputBuffer) : InputBuffer :=
    {| contents := Str.replace (pos b) 0 (String c "") (contents b);
       pos := S (pos b) |}.
Definition del (b : InputBuffer) : InputBuffer :=
    {| contents := Str.replace (pos b) 1 "" (contents b); pos := pos b |}.
Definition backspace (b : InputBuffer) : InputBuffer :=
    match pos b with
    | 0 => b
    | S k => {| contents := Str.replace k 1 "" (contents b); pos := k |}
    end.
Definition moveleft (b : InputBuffer) : InputBuffer :=
    {| contents := contents b; pos := Nat.pred (pos b) |}.
Definition moveright (b : InputBuffer) : InputBuffer :=
    {| contents := contents b;
       pos := Nat.min (S (pos b)) (String.length (contents b)) |}.
Definition movestart (b : InputBuffer) : InputBuffer :=
    {| contents := contents b; pos := 0 |}.
Definition moveend (b : InputBuffer) : InputBuffer :=
    {| contents := contents b; pos := String.length (contents b) |}.
End Buf.

(** Modelled from the spec: class [CursesListBox] is not among the
    sources.  Of a list box the model keeps the focused index; the
    backing vector is the one [setlist] was given, so the operations take
    its current size.  Motion is clamped to the bounds. *)
Record CursesListBox : Type := mkListBox { focusedindex : nat }.

Module Box.
Definition moveabs (i size : nat) : CursesListBox :=
    {| focusedindex := Nat.min i (Nat.pred size) |}.
Definition move (d : Z) (size : nat) (b : CursesListBox) : CursesListBox :=
    {| focusedindex :=
         Z.to_nat (Z.max 0 (Z.min (Z.of_nat (focusedindex b) + d)
                                  (Z.of_nat size - 1))) |}.
Definition movetoend (size : nat) : CursesListBox :=
    {| focusedindex := Nat.pred size |}.
End Box.

Record Program : Type := mkProgram {
  quit : bool;
  op : FilterOperationEnum;
  mode : ModeEnum;
  sortedby : AttributeEnum;
  coloredby : AttributeEnum;
  packages : list Package;
  filteredpackages : list Package;
  opqueue : list Package;
  searchphrases : string;
  inputbuf : InputBuffer;
  hisfilter : History;
  hissort : History;
  hissearch : History;
  hiscolorcode : History;
  hisexec : History;
  hismacro : History;
  macros : list (string * string);
  list_pane : CursesListBox;
  queue_pane : CursesListBox;
  focused_pane : FrameEnum;
  attrlist : list AttributeEnum;
  run_cmd_log : list string
}.

Definition set_quit (v : bool) (p : Program) : Program :=
  {| quit := v; op := op p; mode := mode p; sortedby := sortedby p; coloredby
     := coloredby p; packages := packages p; filteredpackages :=
     filteredpackages p; opqueue := opqueue p; searchphrases := searchphrases
     p; inputbuf := inputbuf p; hisfilter := hisfilter p; hissort := hissort
     p; hissearch := hissearch p; hiscolorcode := hiscolorcode p; hisexec :=
     hisexec p; hismacro := hismacro p; macros := macros p; list_pane :=
     list_pane p; queue_pane := queue_pane p; focused_pane := focused_pane p;
     attrlist := attrlist p; run_cmd_log := run_cmd_log p |}.

Definition set_op (v : FilterOperationEnum) (p : Program) : Program :=
  {| quit := quit p; op := v; mode := mode p; sortedby := sortedby p;
     coloredby := coloredby p; packages := packages p; filteredpackages :=
     filteredpackages p; opqueue := opqueue p; searchphrases := searchphrases
     p; inputbuf := inputbuf p; hisfilter := hisfilter p; hissort := hissort
     p; hissearch := hissearch p; hiscolorcode := hiscolorcode p; hisexec :=
     hisexec p; hismacro := hismacro p; macros := macros p; list_pane :=
     list_pane p; queue_pane := queue_pane p; focused_pane := focused_pane p;
     attrlist := attrlist p; run_cmd_log := run_cmd_log p |}.

Definition set_mode (v : ModeEnum) (p : Program) : Program :=
  {| quit := quit p; op := op p; mode := v; sortedby := sortedby p; coloredby
     := coloredby p; packages := packages p; filteredpackages :=
     filteredpackages p; opqueue := opqueue p; searchphrases := searchphrases
     p; inputbuf := inputbuf p; hisfilter := hisfilter p; hissort := hissort
     p; hissearch := hissearch p; hiscolorcode := hiscolorcode p; hisexec :=
     hisexec p; hismacro := hismacro p; macros := macros p; list_pane :=
     list_pane p; queue_pane := queue_pane p; focused_pane := focused_pane p;
     attrlist := attrlist p; run_cmd_log := run_cmd_log p |}.

Definition set_sortedby (v : AttributeEnum) (p : Program) : Program :=
  {| quit := quit p; op := op p; mode := mode p; sortedby := v; coloredby :=
     coloredby p; packages := packages p; filteredpackages :=
     filteredpackages p; opqueue := opqueue p; searchphrases := searchphrases
     p; inputbuf := inputbuf p; hisfilter := hisfilter p; hissort := hissort
     p; hissearch := hissearch p; hiscolorcode := hiscolorcode p; hisexec :=
     hisexec p; hismacro := hismacro p; macros := macros p; list_pane :=
     list_pane p; queue_pane := queue_pane p; focused_pane := focused_pane p;
     attrlist := attrlist p; run_cmd_log := run_cmd_log p |}.

Definition set_coloredby (v : AttributeEnum) (p : Program) : Program :=
  {| quit := quit p; op := op p; mode := mode p; sortedby := sortedby p;
     coloredby := v; packages := packages p; filteredpackages :=
     filteredpackages p; opqueue := opqueue p; searchphrases := searchphrases
     p; inputbuf := inputbuf p; hisfilter := hisfilter p; hissort := hissort
     p; hissearch := hissearch p; hiscolorcode := hiscolorcode p; hisexec :=
     hisexec p; hismacro := hismacro p; macros := macros p; list_pane :=
     list_pane p; queue_pane := queue_pane p; focused_pane := focused_pane p;
     attrlist := attrlist p; run_cmd_log := run_cmd_log p |}.

Definition set_packages (v : list Package) (p : Program) : Program :=
  {| quit := quit p; op := op p; mode := mode p; sortedby := sortedby p;
     coloredby := coloredby p; packages := v; filteredpackages :=
     filteredpackages p; opqueue := opqueue p; searchphrases := searchphrases
     p; inputbuf := inputbuf p; hisfilter := hisfilter p; hissort := hissort
     p; hissearch := hissearch p; hiscolorcode := hiscolorcode p; hisexec :=
     hisexec p; hismacro := hismacro p; macros := macros p; list_pane :=
     list_pane p; queue_pane := queue_pane p; focused_pane := focused_pane p;
     attrlist := attrlist p; run_cmd_log := run_cmd_log p |}.

Definition set_filteredpackages (v : list Package) (p : Program) : Program :=
  {| quit := quit p; op := op p; mode := mode p; sortedby := sortedby p;
     coloredby := coloredby p; packages := packages p; filteredpackages := v;
     opqueue := opqueue p; searchphrases := searchphrases p; inputbuf :=
     inputbuf p; hisfilter := hisfilter p; hissort := hissort p; hissearch :=
     hissearch p; hiscolorcode := hiscolorcode p; hisexec := hisexec p;
     hismacro := hismacro p; macros := macros p; list_pane := list_pane p;
     queue_pane := queue_pane p; focused_pane := focused_pane p; attrlist :=
     attrlist p; run_cmd_log := run_cmd_log p |}.

Definition set_opqueue (v : list Package) (p : Program) : Program :=
  {| quit := quit p; op := op p; mode := mode p; sortedby := sortedby p;
     coloredby := coloredby p; packages := packages p; filteredpackages :=
     filteredpackages p; opqueue := v; searchphrases := searchphrases p;
     inputbuf := inputbuf p; hisfilter := hisfilter p; hissort := hissort p;
     hissearch := hissearch p; hiscolorcode := hiscolorcode p; hisexec :=
     hisexec p; hismacro := hismacro p; macros := macros p; list_pane :=
     list_pane p; queue_pane := queue_pane p; focused_pane := focused_pane p;
     attrlist := attrlist p; run_cmd_log := run_cmd_log p |}.

Definition set_searchphrases (v : string) (p : Program) : Program :=
  {| quit := quit p; op := op p; mode := mode p; sortedby := sortedby p;
     coloredby := coloredby p; packages := packages p; filteredpackages :=
     filteredpackages p; opqueue := opqueue p; searchphrases := v; inputbuf
     := inputbuf p; hisfilter := hisfilter p; hissort := hissort p; hissearch
     := hissearch p; hiscolorcode := hiscolorcode p; hisexec := hisexec p;
     hismacro := hismacro p; macros := macros p; list_pane := list_pane p;
     queue_pane := queue_pane p; focused_pane := focused_pane p; attrlist :=
     attrlist p; run_cmd_log := run_cmd_log p |}.

Definition set_inputbuf (v : InputBuffer) (p : Program) : Program :=
  {| quit := quit p; op := op p; mode := mode p; sortedby := sortedby p;
     coloredby := coloredby p; packages := packages p; filteredpackages :=
     filteredpackages p; opqueue := opqueue p; searchphrases := searchphrases
     p; inputbuf := v; hisfilter := hisfilter p; hissort := hissort p;
     hissearch := hissearch p; hiscolorcode := hiscolorcode p; hisexec :=
     hisexec p; hismacro := hismacro p; macros := macros p; list_pane :=
     list_pane p; queue_pane := queue_pane p; focused_pane := focused_pane p;
     attrlist := attrlist p; run_cmd_log := run_cmd_log p |}.

Definition set_hisfilter (v : History) (p : Program) : Program :=
  {| quit := quit p; op := op p; mode := mode p; sortedby := sortedby p;
     coloredby := coloredby p; packages := packages p; filteredpackages :=
     filteredpackages p; opqueue := opqueue p; searchphrases := searchphrases
     p; inputbuf := inputbuf p; hisfilter := v; hissort := hissort p;
     hissearch := hissearch p; hiscolorcode := hiscolorcode p; hisexec :=
     hisexec p; hismacro := hismacro p; macros := macros p; list_pane :=
     list_pane p; queue_pane := queue_pane p; focused_pane := focused_pane p;
     attrlist := attrlist p; run_cmd_log := run_cmd_log p |}.

Definition set_hissort (v : History) (p : Program) : Program :=
  {| quit := quit p; op := op p; mode := mode p; sortedby := sortedby p;
     coloredby := coloredby p; packages := packages p; filteredpackages :=
     filteredpackages p; opqueue := opqueue p; searchphrases := searchphrases
     p; inputbuf := inputbuf p; hisfilter := hisfilter p; hissort := v;
     hissearch := hissearch p; hiscolorcode := hiscolorcode p; hisexec :=
     hisexec p; hismacro := hismacro p; macros := macros p; list_pane :=
     list_pane p; queue_pane := queue_pane p; focused_pane := focused_pane p;
     attrlist := attrlist p; run_cmd_log := run_cmd_log p |}.

Definition set_hissearch (v : History) (p : Program) : Program :=
  {| quit := quit p; op := op p; mode := mode p; sortedby := sortedby p;
     coloredby := coloredby p; packages := packages p; filteredpackages :=
     filteredpackages p; opqueue := opqueue p; searchphrases := searchphrases
     p; inputbuf := inputbuf p; hisfilter := hisfilter p; hissort := hissort
     p; hissearch := v; hiscolorcode := hiscolorcode p; hisexec := hisexec p;
     hismacro := hismacro p; macros := macros p; list_pane := list_pane p;
     queue_pane := queue_pane p; focused_pane := focused_pane p; attrlist :=
     attrlist p; run_cmd_log := run_cmd_log p |}.

Definition set_hiscolorcode (v : History) (p : Program) : Program :=
  {| quit := quit p; op := op p; mode := mode p; sortedby := sortedby p;
     coloredby := coloredby p; packages := packages p; filteredpackages :=
     filteredpackages p; opqueue := opqueue p; searchphrases := searchphrases
     p; inputbuf := inputbuf p; hisfilter := hisfilter p; hissort := hissort
     p; hissearch := hissearch p; hiscolorcode := v; hisexec := hisexec p;
     hismacro := hismacro p; macros := macros p; list_pane := list_pane p;
     queue_pane := queue_pane p; focused_pane := focused_pane p; attrlist :=
     attrlist p; run_cmd_log := run_cmd_log p |}.

Definition set_hisexec (v : History) (p : Program) : Program :=
  {| quit := quit p; op := op p; mode := mode p; sortedby := sortedby p;
     coloredby := coloredby p; packages := packages p; filteredpackages :=
     filteredpackages p; opqueue := opqueue p; searchphrases := searchphrases
     p; inputbuf := inputbuf p; hisfilter := hisfilter p; hissort := hissort
     p; hissearch := hissearch p; hiscolorcode := hiscolorcode p; hisexec :=
     v; hismacro := hismacro p; macros := macros p; list_pane := list_pane p;
     queue_pane := queue_pane p; focused_pane := focused_pane p; attrlist :=
     attrlist p; run_cmd_log := run_cmd_log p |}.

Definition set_hismacro (v : History) (p : Program) : Program :=
  {| quit := quit p; op := op p; mode := mode p; sortedby := sortedby p;
     coloredby := coloredby p; packages := packages p; filteredpackages :=
     filteredpackages p; opqueue := opqueue p; searchphrases := searchphrases
     p; inputbuf := inputbuf p; hisfilter := hisfilter p; hissort := hissort
     p; hissearch := hissearch p; hiscolorcode := hiscolorcode p; hisexec :=
     hisexec p; hismacro := v; macros := macros p; list_pane := list_pane p;
     queue_pane := queue_pane p; focused_pane := focused_pane p; attrlist :=
     attrlist p; run_cmd_log := run_cmd_log p |}.

Definition set_macros (v : list (string * string)) (p : Program) : Program :=
  {| quit := quit p; op := op p; mode := mode p; sortedby := sortedby p;
     coloredby := coloredby p; packages := packages p; filteredpackages :=
     filteredpackages p; opqueue := opqueue p; searchphrases := searchphrases
     p; inputbuf := inputbuf p; hisfilter := hisfilter p; hissort := hissort
     p; hissearch := hissearch p; hiscolorcode := hiscolorcode p; hisexec :=
     hisexec p; hismacro := hismacro p; macros := v; list_pane := list_pane
     p; queue_pane := queue_pane p; focused_pane := focused_pane p; attrlist
     := attrlist p; run_cmd_log := run_cmd_log p |}.

Definition set_list_pane (v : CursesListBox) (p : Program) : Program :=
  {| quit := quit p; op := op p; mode := mode p; sortedby := sortedby p;
     coloredby := coloredby p; packages := packages p; filteredpackages :=
     filteredpackages p; opqueue := opqueue p; searchphrases := searchphrases
     p; inputbuf := inputbuf p; hisfilter := hisfilter p; hissort := hissort
     p; hissearch := hissearch p; hiscolorcode := hiscolorcode p; hisexec :=
     hisexec p; hismacro := hismacro p; macros := macros p; list_pane := v;
     queue_pane := queue_pane p; focused_pane := focused_pane p; attrlist :=
     attrlist p; run_cmd_log := run_cmd_log p |}.

Definition set_queue_pane (v : CursesListBox) (p : Program) : Program :=
  {| quit := quit p; op := op p; mode := mode p; sortedby := sortedby p;
     coloredby := coloredby p; packages := packages p; filteredpackages :=
     filteredpackages p; opqueue := opqueue p; searchphrases := searchphrases
     p; inputbuf := inputbuf p; hisfilter := hisfilter p; hissort := hissort
     p; hissearch := hissearch p; hiscolorcode := hiscolorcode p; hisexec :=
     hisexec p; hismacro := hismacro p; macros := macros p; list_pane :=
     list_pane p; queue_pane := v; focused_pane := focused_pane p; attrlist
     := attrlist p; run_cmd_log := run_cmd_log p |}.

Definition set_focused_pane (v : FrameEnum) (p : Program) : Program :=
  {| quit := quit p; op := op p; mode := mode p; sortedby := sortedby p;
     coloredby := coloredby p; packages := packages p; filteredpackages :=
     filteredpackages p; opqueue := opqueue p; searchphrases := searchphrases
     p; inputbuf := inputbuf p; hisfilter := hisfilter p; hissort := hissort
     p; hissearch := hissearch p; hiscolorcode := hiscolorcode p; hisexec :=
     hisexec p; hismacro := hismacro p; macros := macros p; list_pane :=
     list_pane p; queue_pane := queue_pane p; focused_pane := v; attrlist :=
     attrlist p; run_cmd_log := run_cmd_log p |}.

Definition set_attrlist (v : list AttributeEnum) (p : Program) : Program :=
  {| quit := quit p; op := op p; mode := mode p; sortedby := sortedby p;
     coloredby := coloredby p; packages := packages p; filteredpackages :=
     filteredpackages p; opqueue := opqueue p; searchphrases := searchphrases
     p; inputbuf := inputbuf p; hisfilter := hisfilter p; hissort := hissort
     p; hissearch := hissearch p; hiscolorcode := hiscolorcode p; hisexec :=
     hisexec p; hismacro := hismacro p; macros := macros p; list_pane :=
     list_pane p; queue_pane := queue_pane p; focused_pane := focused_pane p;
     attrlist := v; run_cmd_log := run_cmd_log p |}.

Definition set_run_cmd_log (v : list string) (p : Program) : Program :=
  {| quit := quit p; op := op p; mode := mode p; sortedby := sortedby p;
     coloredby := coloredby p; packages := packages p; filteredpackages :=
     filteredpackages p; opqueue := opqueue p; searchphrases := searchphrases
     p; inputbuf := inputbuf p; hisfilter := hisfilter p; hissort := hissort
     p; hissearch := hissearch p; hiscolorcode := hiscolorcode p; hisexec :=
     hisexec p; hismacro := hismacro p; macros := macros p; list_pane :=
     list_pane p; queue_pane := queue_pane p; focused_pane := focused_pane p;
     attrlist := attrlist p; run_cmd_log := v |}.

(** [gethis]; the source asserts that [o] is not [OP_NONE]. *)
Definition gethis (o : FilterOperationEnum) (p : Program) : History :=
  match o with
  | OP_FILTER => hisfilter p
  | OP_SORT => hissort p
  | OP_SEARCH => hissearch p
  | OP_COLORCODE => hiscolorcode p
  | OP_EXEC => hisexec p
  | OP_MACRO => hismacro p
  | OP_NONE => mkHistory [] 0
  end.

(** Assignment through the pointer [gethis] returns. *)
Definition sethis (o : FilterOperationEnum) (h : History) (p : Program)
    : Program :=
  match o with
  | OP_FILTER => set_hisfilter h p
  | OP_SORT => set_hissort h p
  | OP_SEARCH => set_hissearch h p
  | OP_COLORCODE => set_hiscolorcode h p
  | OP_EXEC => set_hisexec h p
  | OP_MACRO => set_hismacro h p
  | OP_NONE => p
  end.

Definition his_add (o : FilterOperationEnum) (s : string) (p : Program)
    : Program :=
  sethis o (His.add s (gethis o p)) p.

(* ================================================================== *)
(** ** Outcomes *)

(** A handler returns a state, or runs into undefined behaviour (an
    iterator or index out of range), or is still running when the fuel of
    the model is used up. *)
Inductive result (A : Type) : Type :=
| Ok (a : A)
| Undefined
| OutOfFuel.

Arguments Ok {A} a.
Arguments Undefined {A}.
Arguments OutOfFuel {A}.

Definition bind {A B : Type} (r : result A) (k : A -> result B) : result B :=
  match r with
  | Ok a => k a
  | Undefined => Undefined
  | OutOfFuel => OutOfFuel
  end.

Notation "x <- r ;; k" := (bind r (fun x => k))
  (at level 61, r at next level, right associativity).

(* ================================================================== *)
(** ** Vectors and the standard algorithms *)

Module Vec.
Section Algorithms.
Context {A : Type}.

Fixpoint find_first (pred : A -> bool) (l : list A) : nat :=
      match l with
      | [] => 0
      | x :: t => if pred x then 0 else S (find_first pred t)
      end.

    (** [std::find_if(v.begin() + first, v.end(), pred) - v.begin()]; the
        result is [length v] when the iterator is [v.end()]. *)
Definition find_if (pred : A -> bool) (first : nat) (v : list A) : nat :=
      first + find_first pred (skipn first v).

    (** [v.erase(v.begin() + it)]. *)
Definition erase (it : nat) (v : list A) : list A :=
      firstn it v ++ skipn (S it) v.

    (** [while (it != v.end()) { v.erase(it); it = find_if(it, v.end(), pred); }] *)
Fixpoint erase_while (fuel : nat) (pred : A -> bool) (it : nat)
        (v : list A) : list A :=
      if it =? List.length v then v
      else match fuel with
           | 0 => v
           | S f =>
               let v' := erase it v in
               erase_while f pred (find_if pred it v') v'
           end.

    (** The removal loop of [filterpackages].  Every turn erases one
        element, so [length v] turns are enough. *)
Definition remove_loop (pred : A -> bool) (v : list A) : list A :=
      erase_while (List.length v) pred (find_if pred 0 v) v.

Fixpoint insert_sorted (lt : A -> A -> bool) (x : A) (l : list A)
        : list A :=
      match l with
      | [] => [x]
      | y :: t => if lt x y then x :: l else y :: insert_sorted lt x t
      end.

    (** [std::sort(v.begin(), v.end(), lt)].  The standard leaves the
        order of equivalent elements open; the model keeps it. *)
Definition sort (lt : A -> A -> bool) (v : list A) : list A :=
      fold_left (fun acc x => insert_sorted lt x acc) v [].
End Algorithms.
End Vec.

(* ================================================================== *)
(** ** program.cpp: the handlers *)

Section Handlers.
Context {AI : AttributeInfo} {RE : Xpressive}.

(** [optostr] *)
Definition optostr (o : FilterOperationEnum) : string :=
  match o with
  | OP_FILTER => "/"
  | OP_SORT => "."
  | OP_SEARCH => "?"
  | OP_COLORCODE => ";"
  | OP_EXEC => "!"
  | OP_MACRO => "@"
  | OP_NONE => ""
  end.

(** [strtoopt]: the loop over the operations before [OP_NONE]. *)
Definition strtoopt (str : string) : FilterOperationEnum :=
  match
    List.find (fun o => String.eqb (optostr o) str)
      [OP_FILTER; OP_SORT; OP_SEARCH; OP_COLORCODE; OP_EXEC; OP_MACRO]
  with
  | Some o => o
  | None => OP_NONE
  end.

(** [setfocus] *)
Definition setfocus (frame : FrameEnum) (p : Program) : Program :=
  match opqueue p, frame with
  | [], FE_QUEUE => set_focused_pane FE_LIST p
  | _, _ => set_focused_pane frame p
  end.

(** [clearfilter]: the comparator is [Filter::cmp] bound to [sortedby]. *)
Definition clearfilter (p : Program) : Program :=
  let p :=
    set_filteredpackages
      (Vec.sort (fun a b => FilterH.cmp a b (sortedby p)) (packages p)) p in
  let p := set_searchphrases "" p in
  set_list_pane (Box.moveabs 0 (List.length (filteredpackages p))) p.

(** The pattern [reprefix] of [filterpackages] applied to [str]: its
    groups 2, 3 and 4.  The optional group 1 matches when letters, then at
    most one exclamation mark, then a colon open the string; group 4 is
    what is left. *)
Definition split_filter (str : string) : string * string * string :=
  let (fieldlist, rest) := Str.span_alpha str in
  match rest with
  | String "!" (String ":" phrase) => (fieldlist, "!", phrase)
  | String ":" phrase => (fieldlist, "", phrase)
  | _ => ("", "", str)
  end.

(** The pattern [reprefix] of [searchpackages] (letters, a colon, the
    rest): its groups 1 and 2 when it is found. *)
Definition split_search (str : string) : option (string * string) :=
  let (fieldlist, rest) := Str.span_alpha str in
  match rest with
  | String ":" phrase => Some (fieldlist, phrase)
  | _ => None
  end.

Definition is_empty (s : string) : bool := String.length s =? 0.

(** What [filterpackages] does once the prefix is split off and the
    phrase is known not to be empty: [None] when [regex_error] is caught. *)
Definition filter_view (negate searchphrase : string) (attrs : list AttributeEnum)
    (v : list Package) : option (list Package) :=
  if regex_match searchphrase resimple then
    let fn :=
      if is_empty negate then FilterH.notmatches else FilterH.matches in
    Some (Vec.remove_loop (fun a => fn attrs a searchphrase) v)
  else
    let fn :=
      if is_empty negate then FilterH.notmatchesre else FilterH.matchesre in
    match compile_icase searchphrase with
    | None => None
    | Some needle => Some (Vec.remove_loop (fun a => fn attrs a needle) v)
    end.

(** [filterpackages] *)
Definition filterpackages (str : string) (p : Program) : Program :=
  let p := his_add OP_FILTER str p in
  let p := set_attrlist Filter.clearattrs p in
  let '(fieldlist, negate, searchphrase) := split_filter str in
  if is_empty searchphrase then p
  else
    let p := if negb (is_empty fieldlist)
             then set_attrlist (Filter.setattrs fieldlist) p else p in
    match filter_view negate searchphrase (attrlist p) (filteredpackages p) with
    | Some v =>
        let p := set_filteredpackages v p in
        let p := if negb (is_empty (searchphrases p))
                 then set_searchphrases (searchphrases p ++ ", ") p else p in
        set_searchphrases (searchphrases p ++ str) p
    | None => p
    end.

(** The iterator [begin] of [searchpackages]. *)
Definition search_begin (p : Program) : nat :=
  focusedindex (list_pane p) + 1.

(** [searchpackages] *)
Definition searchpackages (str : string) (p : Program) : result Program :=
  let p := his_add OP_SEARCH str p in
  let p := set_attrlist Filter.clearattrs p in
  let '(p, searchphrase) :=
    match split_search str with
    | Some (fieldlist, phrase) =>
        (set_attrlist (Filter.setattrs fieldlist) p, phrase)
    | None => (p, str)
    end in
  if is_empty searchphrase then Ok p
  else
    let v := filteredpackages p in
    let pred := fun a => FilterH.matches (attrlist p) a searchphrase in
    let begin := search_begin p in
    if List.length v <? begin then Undefined
    else
      let it := Vec.find_if pred begin v in
      let it := if (it =? List.length v) && negb (begin =? 0)
                then Vec.find_if pred 0 v else it in
      if it =? List.length v then Ok p
      else Ok (set_list_pane (Box.moveabs it (List.length v)) p).

(** The loop of [sortpackages] and [colorcodepackages] that looks for the
    first character with an attribute. *)
Fixpoint first_attr (str : string) : AttributeEnum :=
  match str with
  | EmptyString => A_NONE
  | String c t =>
      let attr := chartoattr c in
      if attr_eqb attr A_NONE then first_attr t else attr
  end.

(** [sortpackages]; for the comparator see [clearfilter]. *)
Definition sortpackages (str : string) (p : Program) : Program :=
  if String.length str <? 1 then p
  else
    let p := his_add OP_SORT str p in
    let attr := first_attr str in
    if attr_eqb attr A_NONE then p
    else
      let p := set_sortedby attr p in
      set_filteredpackages
        (Vec.sort (fun a b => FilterH.cmp a b attr) (filteredpackages p)) p.

(** [colorcodepackages]; [Filter::assigncol] only hands colours to the
    display. *)
Definition colorcodepackages (str : string) (p : Program) : Program :=
  if String.length str <? 1 then p
  else
    let p := his_add OP_COLORCODE str p in
    let attr := first_attr str in
    if attr_eqb attr A_NONE then p
    else
      let p := set_attrlist Filter.clearattrs p in
      set_coloredby attr p.

(** The string [pkgs] of [execmd]. *)
Fixpoint pkgs_of (q : list Package) : string :=
  match q with
  | [] => ""
  | a :: t => (getname a ++ " ") ++ pkgs_of t
  end.

(** [while ((pos = str.find(needle)) != npos) str.replace(pos, 2, pkgs);] *)
Fixpoint subst_loop (fuel : nat) (pkgs str : string) : result string :=
  match Str.find "%p" str with
  | None => Ok str
  | Some pos =>
      match fuel with
      | 0 => OutOfFuel
      | S f => subst_loop f pkgs (Str.replace pos 2 pkgs str)
      end
  end.

(** [init_curses], as far as the state goes: new panes, the list focused. *)
Definition init_curses (p : Program) : Program :=
  let p := set_list_pane (mkListBox 0) p in
  let p := set_queue_pane (mkListBox 0) p in
  setfocus FE_LIST p.

(** [execmd]; [run_cmd] is recorded in [run_cmd_log]. *)
Definition execmd (fuel : nat) (str : string) (p : Program) : result Program :=
  let p := his_add OP_EXEC str p in
  cmd <- subst_loop fuel (pkgs_of (opqueue p)) str ;;
  Ok (init_curses (set_run_cmd_log (run_cmd_log p ++ [cmd]) p)).

Definition macros_find (key : string) (m : list (string * string))
    : option string :=
  option_map snd (List.find (fun kv => String.eqb (fst kv) key) m).

(** The loop of [execmacro] over the parts, [exit] being
    [exitinputmode]. *)
Fixpoint macro_loop (exit : FilterOperationEnum -> Program -> result Program)
    (strs : list string) (p : Program) : result Program :=
  match strs with
  | [] => Ok p
  | part :: rest =>
      match macros_find (Str.trim part) (macros p) with
      | None => Ok p
      | Some cmd =>
          match strtoopt (String.substring 0 1 cmd) with
          | OP_NONE => Ok p
          | o =>
              p <- exit o (set_inputbuf (Buf.set (Str.drop 1 cmd)) p) ;;
              macro_loop exit rest p
          end
      end
  end.

Definition execmacro_with
    (exit : FilterOperationEnum -> Program -> result Program)
    (str : string) (p : Program) : result Program :=
  let p := his_add OP_MACRO str p in
  macro_loop exit (Str.split "," str) p.

(** [exitinputmode].  It and [execmacro] call each other; [fuel] bounds
    the depth of these calls and the turns of the loop of [execmd]. *)
Fixpoint exitinputmode (fuel : nat) (o : FilterOperationEnum) (p : Program)
    : result Program :=
  match fuel with
  | 0 => OutOfFuel
  | S f =>
      let p := set_mode MODE_STANDARD p in
      let p := set_op OP_NONE p in
      let str := contents (inputbuf p) in
      if String.length str =? 0 then Ok p
      else
        match o with
        | OP_FILTER =>
            let p := filterpackages str p in
            Ok (set_list_pane
                  (Box.moveabs 0 (List.length (filteredpackages p))) p)
        | OP_SORT => Ok (sortpackages str p)
        | OP_SEARCH => searchpackages str p
        | OP_COLORCODE => Ok (colorcodepackages str p)
        | OP_EXEC => execmd f str p
        | OP_MACRO => execmacro_with (exitinputmode f) str p
        | OP_NONE => Ok p
        end
  end.

(** [execmacro] *)
Definition execmacro (fuel : nat) (str : string) (p : Program)
    : result Program :=
  execmacro_with (exitinputmode fuel) str p.

(** [prepinputmode] *)
Definition prepinputmode (o : FilterOperationEnum) (p : Program) : Program :=
  let p := set_mode MODE_INPUT p in
  let p := set_inputbuf Buf.clear p in
  let p := sethis o (His.reset (gethis o p)) p in
  set_op o p.

End Handlers.

(* ================================================================== *)
(** ** program.cpp: start-up and the main loop *)

(** What the program reads from outside: the vector [loadpkgs] builds
    from the package databases, the macro table of the configuration, and
    the usable height of the list pane. *)
Class Environment : Type := {
  alpm_packages : list Package;
  conf_macros : list (string * string);
  usableheight : nat
}.

(** The values [getch] returns.  [Char c] is a character that is none of
    the keys named here. *)
Inductive Key : Type :=
| Char (c : ascii)
| KEY_UP | KEY_DOWN | KEY_HOME | KEY_END | KEY_PPAGE | KEY_NPAGE
| KEY_TAB | KEY_RIGHT | KEY_LEFT | KEY_ESC | KEY_RETURN | KEY_DC
| KEY_BACKSPACE | KEY_KONSOLEBACKSPACE | KEY_RESIZE | ERR.

Section Mainloop.
Context {AI : AttributeInfo} {RE : Xpressive} {EN : Environment}.

Definition pane_size (f : FrameEnum) (p : Program) : nat :=
  match f with
  | FE_LIST => List.length (filteredpackages p)
  | FE_QUEUE => List.length (opqueue p)
  end.

Definition get_pane (f : FrameEnum) (p : Program) : CursesListBox :=
  match f with FE_LIST => list_pane p | FE_QUEUE => queue_pane p end.

Definition set_pane (f : FrameEnum) (b : CursesListBox) (p : Program)
    : Program :=
  match f with FE_LIST => set_list_pane b p | FE_QUEUE => set_queue_pane b p end.

(** [focused_pane->move(d)] *)
Definition focused_move (d : Z) (p : Program) : Program :=
  let f := focused_pane p in
  set_pane f (Box.move d (pane_size f p) (get_pane f p)) p.

(** Modelled from the spec: [queue_pane->removeselected()] removes the
    focused entry of the queue; the focus stays within bounds. *)
Definition removeselected (p : Program) : Program :=
  let i := focusedindex (queue_pane p) in
  let q := Vec.erase i (opqueue p) in
  set_queue_pane (Box.moveabs i (List.length q)) (set_opqueue q p).

(** [while (!opqueue.empty()) queue_pane->removeselected();] *)
Fixpoint clear_queue (fuel : nat) (p : Program) : result Program :=
  match opqueue p with
  | [] => Ok p
  | _ :: _ =>
      match fuel with
      | 0 => OutOfFuel
      | S f => clear_queue f (removeselected p)
      end
  end.

(** The state the constructor [Program::Program] leaves. *)
Definition constructed : Program :=
  {| quit := false; op := OP_NONE; mode := MODE_STANDARD;
     sortedby := A_NAME; coloredby := A_INSTALLSTATE;
     packages := []; filteredpackages := []; opqueue := [];
     searchphrases := ""; inputbuf := Buf.clear;
     hisfilter := mkHistory [] 0; hissort := mkHistory [] 0;
     hissearch := mkHistory [] 0; hiscolorcode := mkHistory [] 0;
     hisexec := mkHistory [] 0; hismacro := mkHistory [] 0;
     macros := []; list_pane := mkListBox 0; queue_pane := mkListBox 0;
     focused_pane := FE_LIST; attrlist := []; run_cmd_log := [] |}.

(** [deinit] *)
Definition deinit (p : Program) : Program :=
  set_opqueue [] (set_packages [] (set_filteredpackages [] p)).

(** [loadpkgs] *)
Definition loadpkgs (p : Program) : Program :=
  let p := set_macros conf_macros p in
  let p := set_packages alpm_packages p in
  set_filteredpackages (packages p) p.

(** [init]: [loadpkgs], [init_curses], [init_misc]. *)
Definition init (fuel : nat) (p : Program) : result Program :=
  let p := init_curses (loadpkgs p) in
  let p := colorcodepackages (String (attrtochar (coloredby p)) "") p in
  let p := set_searchphrases "" p in
  execmacro fuel "startup" p.

Definition is_digit_key (c : ascii) : bool := Str.is_digit c.

(** The character [inputbuf.insert(ch)] receives for the keys that have no
    case of their own in Input mode: the tabulator, and the codes of
    curses.h for the page keys cut down to a character. *)
Definition key_char (ch : Key) : ascii :=
  match ch with
  | Char c => c
  | KEY_TAB => ascii_of_nat 9
  | KEY_PPAGE => ascii_of_nat 339
  | KEY_NPAGE => ascii_of_nat 338
  | _ => zero
  end.

(** One turn of the loop of [mainloop] after [getch] returned [ch]. *)
Definition mainloop_step (fuel : nat) (ch : Key) (p : Program)
    : result Program :=
  match ch with
  | ERR | KEY_RESIZE => Ok p
  | _ =>
  match mode p with
  | MODE_STANDARD =>
      match ch with
      | Char "k" | KEY_UP => Ok (focused_move (-1) p)
      | Char "j" | KEY_DOWN => Ok (focused_move 1 p)
      | KEY_HOME =>
          let f := focused_pane p in
          Ok (set_pane f (Box.moveabs 0 (pane_size f p)) p)
      | KEY_END =>
          let f := focused_pane p in
          Ok (set_pane f (Box.movetoend (pane_size f p)) p)
      | KEY_PPAGE => Ok (focused_move (Z.of_nat usableheight * -1) p)
      | KEY_NPAGE => Ok (focused_move (Z.of_nat usableheight) p)
      | KEY_TAB =>
          Ok (setfocus (match focused_pane p with
                        | FE_LIST => FE_QUEUE
                        | FE_QUEUE => FE_LIST
                        end) p)
      | KEY_RIGHT =>
          match focused_pane p with
          | FE_QUEUE => Ok p
          | FE_LIST =>
              if List.length (filteredpackages p) =? 0 then Ok p
              else
                match nth_error (filteredpackages p)
                                (focusedindex (list_pane p)) with
                | None => Undefined
                | Some a =>
                    if existsb (Package_eqb a) (opqueue p) then Ok p
                    else
                      let p := set_opqueue (opqueue p ++ [a]) p in
                      let p := set_queue_pane
                                 (Box.movetoend (List.length (opqueue p))) p in
                      Ok (focused_move 1 p)
                end
          end
      | KEY_LEFT =>
          match focused_pane p with
          | FE_LIST => Ok p
          | FE_QUEUE =>
              let p := removeselected p in
              Ok (match opqueue p with [] => setfocus FE_LIST p | _ => p end)
          end
      | Char "C" =>
          p <- clear_queue fuel p ;; Ok (setfocus FE_LIST p)
      | Char "h" => Ok (set_mode MODE_HELP p)
      | Char "q" => Ok (set_quit true p)
      | Char "r" =>
          p <- init fuel (deinit p) ;; Ok (clearfilter p)
      | Char "c" => Ok (clearfilter p)
      | Char ("n" as c) | Char ("d" as c) =>
          let p := prepinputmode OP_FILTER p in
          Ok (set_inputbuf (Buf.set (String c ":")) p)
      | Char ("/" as c) | Char ("." as c) | Char ("?" as c)
      | Char (";" as c) | Char ("!" as c) | Char ("@" as c) =>
          Ok (prepinputmode (strtoopt (String c "")) p)
      | Char c =>
          if is_digit_key c then execmacro fuel (String c "") p else Ok p
      | _ => Ok p
      end
  | MODE_INPUT =>
      match ch with
      | KEY_ESC => exitinputmode fuel OP_NONE p
      | KEY_RETURN => exitinputmode fuel (op p) p
      | KEY_DC => Ok (set_inputbuf (Buf.del (inputbuf p)) p)
      | KEY_BACKSPACE | KEY_KONSOLEBACKSPACE =>
          Ok (set_inputbuf (Buf.backspace (inputbuf p)) p)
      | KEY_LEFT => Ok (set_inputbuf (Buf.moveleft (inputbuf p)) p)
      | KEY_RIGHT => Ok (set_inputbuf (Buf.moveright (inputbuf p)) p)
      | KEY_HOME => Ok (set_inputbuf (Buf.movestart (inputbuf p)) p)
      | KEY_END => Ok (set_inputbuf (Buf.moveend (inputbuf p)) p)
      | KEY_UP =>
          if His.empty (gethis (op p) p) then Ok p
          else
            let h := His.moveback (gethis (op p) p) in
            Ok (set_inputbuf (Buf.set (His.current h)) (sethis (op p) h p))
      | KEY_DOWN =>
          if His.empty (gethis (op p) p) then Ok p
          else
            let h := His.moveforward (gethis (op p) p) in
            Ok (set_inputbuf (Buf.set (His.current h)) (sethis (op p) h p))
      | Char c => Ok (set_inputbuf (Buf.insert c (inputbuf p)) p)
      | KEY_TAB | KEY_PPAGE | KEY_NPAGE =>
          Ok (set_inputbuf (Buf.insert (key_char ch) (inputbuf p)) p)
      | ERR | KEY_RESIZE => Ok p
      end
  | MODE_HELP => Ok (set_mode MODE_STANDARD p)
  end
  end.

(** The loop of [mainloop] over the keys [getch] returns. *)
Fixpoint mainloop (fuel : nat) (keys : list Key) (p : Program)
    : result Program :=
  match keys with
  | [] => Ok p
  | ch :: rest =>
      if quit p then Ok p
      else p <- mainloop_step fuel ch p ;; mainloop fuel rest p
  end.

(** The states the program passes through: after [init] on the
    constructed object, and after every further turn of the loop. *)
Inductive reachable : Program -> Prop :=
| reach_init : forall fuel p,
    init fuel constructed = Ok p -> reachable p
| reach_step : forall fuel ch p p',
    reachable p -> mainloop_step fuel ch p = Ok p' -> reachable p'.

End Mainloop.

(* ================================================================== *)
(** ** program.cpp: the info pane *)

(** The two colour pairs [printinfosection] prints a caption with. *)
Inductive Style : Type := C_DEF | C_DEF_HL2.

(** [toupper] on one character (classic locale). *)
Definition to_upper_char (c : ascii) : ascii :=
  let n := nat_of_ascii c in
  if ((97 <=? n) && (n <=? 122))%nat then ascii_of_nat (n - 32) else c.

(** The loop of [printinfosection] over the caption: every character
    with the style it is printed in, [hldone] being the flag of that
    name. *)
Fixpoint caption_styles (hllower hlupper : ascii) (hldone : bool)
    (caption : string) : list (ascii * Style) :=
  match caption with
  | EmptyString => []
  | String ch t =>
      if negb hldone && (Ascii.eqb ch hllower || Ascii.eqb ch hlupper)
      then (ch, C_DEF) :: caption_styles hllower hlupper true t
      else (ch, C_DEF_HL2) :: caption_styles hllower hlupper hldone t
  end.

(** The caption as [printinfosection] prints it for the attribute whose
    key is [hllower]. *)
Definition printed_caption (hllower : ascii) (caption : string)
    : list (ascii * Style) :=
  caption_styles hllower (to_upper_char hllower) false caption.

(** [ch] is the key of the attribute in either case. *)
Definition is_key (hllower ch : ascii) : bool :=
  Ascii.eqb ch hllower || Ascii.eqb ch (to_upper_char hllower).

(* ================================================================== *)
(** ** Specification-side definitions *)

(** Every occurrence of the token [%p], read from the left, replaced by
    [pkgs]. *)
Fixpoint replace_all (pkgs s : string) : string :=
  match s with
  | EmptyString => EmptyString
  | String c t =>
      match t with
      | String "p" t' =>
          if Ascii.eqb c "%" then pkgs ++ replace_all pkgs t'
          else String c (replace_all pkgs t)
      | _ => String c (replace_all pkgs t)
      end
  end.

(** The elements a removal by [pred] keeps. *)
Definition keeps {A : Type} (pred : A -> bool) : A -> bool :=
  fun x => negb (pred x).

(** [s] begins with the letter p. *)
Definition starts_p (s : string) : bool :=
  match s with String "p" _ => true | _ => false end.

(** The token [%p] opens the string [String c t]. *)
Definition hit (c : ascii) (t : string) : bool :=
  Ascii.eqb c "%" && starts_p t.

(** The last character of [s] is a percent sign. *)
Fixpoint ends_pct (s : string) : bool :=
  match s with
  | EmptyString => false
  | String c EmptyString => Ascii.eqb c "%"
  | String _ t => ends_pct t
  end.

(** [s] opens with percent signs, none or more, and then the letter p. *)
Fixpoint runp (s : string) : bool :=
  match s with
  | EmptyString => false
  | String c t => if Ascii.eqb c "%" then runp t else Ascii.eqb c "p"
  end.

(** The number of percent signs of [s] from which only percent signs lead
    up to a letter p: the measure that every turn of the substitution
    loop of [execmd] lowers. *)
Fixpoint phi (s : string) : nat :=
  match s with
  | EmptyString => 0
  | String c t => (if Ascii.eqb c "%" && runp t then 1 else 0) + phi t
  end.

(** [s] contains [needle]. *)
Definition contains (needle s : string) : bool :=
  match Str.find needle s with Some _ => true | None => false end.

(** Some active attribute of [a] contains [phrase], letter case aside. *)
Definition attr_contains (attrs : list AttributeEnum) (a : Package)
    (phrase : string) : bool :=
  existsb
    (fun attr => contains (Str.to_lower phrase) (Str.to_lower (getattr a attr)))
    attrs.

(** The state [execmd] returns when its loop ends with [cmd]. *)
Definition ran (str cmd : string) (p : Program) : result Program :=
  Ok (init_curses
        (set_run_cmd_log (run_cmd_log p ++ [cmd]) (his_add OP_EXEC str p))).

(** The keys that commit [text] for the operation entered with [c]. *)
Definition typed (c : ascii) (text : string) : list Key :=
  Char c :: map Char (list_ascii_of_string text) ++ [KEY_RETURN].

(** The search phrase of a committed search: what follows the fields
    prefix, or the whole input when there is no prefix. *)
Definition search_phrase (str : string) : string :=
  match split_search str with
  | Some (_, phrase) => phrase
  | None => str
  end.

(** The comparator the sort handler is described with: the text of the
    given attribute. *)
Definition compareByAttribute (attr : AttributeEnum) (a b : Package) : bool :=
  String.ltb (getattr a attr) (getattr b attr).

(** [v] is in ascending order of the text of [attr]: no entry comes
    before one whose text is smaller. *)
Definition ascending (attr : AttributeEnum) (v : list Package) : Prop :=
  StronglySorted (fun a b => compareByAttribute attr b a = false) v.

(** [c] is a capital letter. *)
Definition is_capital (c : ascii) : bool :=
  let n := nat_of_ascii c in (65 <=? n) && (n <=? 90).

(** [a] and [b] are the same character, or the capital and the small
    form of one letter. *)
Definition same_letter (a b : ascii) : bool :=
  let x := nat_of_ascii a in
  let y := nat_of_ascii b in
  (x =? y) || (is_capital a && (y =? x + 32))
  || (is_capital b && (x =? y + 32)).

(** [s] opens with [needle], letter case aside. *)
Fixpoint opens_with (needle s : string) : bool :=
  match needle, s with
  | EmptyString, _ => true
  | String a n', String b s' => same_letter a b && opens_with n' s'
  | String _ _, EmptyString => false
  end.

(** [needle] occurs in [s], letter case aside. *)
Fixpoint mentions (needle s : string) : bool :=
  opens_with needle s ||
  match s with
  | EmptyString => false
  | String _ t => mentions needle t
  end.

(** The text of some active attribute of [a] has [phrase] in it, letter
    case aside. *)
Definition mentioned_in (attrs : list AttributeEnum) (a : Package)
    (phrase : string) : bool :=
  existsb (fun attr => mentions phrase (getattr a attr)) attrs.

(** The pattern [needle] is found in the text of some active attribute
    of [a]. *)
Definition pattern_in `{Xpressive} (attrs : list AttributeEnum) (a : Package)
    (needle : sregex) : bool :=
  existsb (fun attr => regex_search (getattr a attr) needle) attrs.

(** The index of the first entry of [v] from [from] on and before [upto]
    that [hits] holds for. *)
Definition first_hit (hits : Package -> bool) (from upto : nat)
    (v : list Package) : option nat :=
  List.find
    (fun i => match nth_error v i with Some a => hits a | None => false end)
    (seq from (upto - from)).

(** Every character there is. *)
Definition all_ascii : list ascii := map ascii_of_nat (seq 0 256).

(** Somewhere in [s] a percent sign stands directly before a token. *)
Fixpoint pct_before_token (s : string) : bool :=
  match s with
  | EmptyString => false
  | String c t =>
      (Ascii.eqb c "%" &&
       match t with String c' t' => hit c' t' | EmptyString => false end)
      || pct_before_token t
  end.

Section Notions.
Context {AI : AttributeInfo} {RE : Xpressive} {EN : Environment}.

(** The selection [filterpackages] filters with. *)
Definition filter_attrs (fieldlist : string) : list AttributeEnum :=
  if is_empty fieldlist then Filter.clearattrs else Filter.setattrs fieldlist.

(** What the handlers leave alone: the queue and the catalog stay, the
    View loses entries at most. *)
Definition shrinks (p p' : Program) : Prop :=
  opqueue p' = opqueue p /\ packages p' = packages p /\
  incl (filteredpackages p') (filteredpackages p).

(** The invariant of the main loop: the queue has no entry twice, queue
    and View hold entries of the catalog, and the catalog is the one that
    was loaded. *)
Definition Inv (p : Program) : Prop :=
  NoDup (opqueue p) /\ incl (opqueue p) (packages p) /\
  incl (filteredpackages p) (packages p) /\ packages p = alpm_packages.

(** Input mode entry, as far as [exitinputmode] can tell: the browse
    cursor of the history of [o] is moved past the end. *)
Definition his_reset (o : FilterOperationEnum) (p : Program) : Program :=
  sethis o (His.reset (gethis o p)) p.

(** The histories only gain entries at their ends. *)
Definition grows (p p' : Program) : Prop :=
  forall o, exists l, his_v (gethis o p') = his_v (gethis o p) ++ l.

(** Mode and pending operation stay, or are back at Standard and none. *)
Definition settles (p p' : Program) : Prop :=
  (mode p' = mode p /\ op p' = op p) \/
  (mode p' = MODE_STANDARD /\ op p' = OP_NONE).

(** The input focus stays, or is back on the list. *)
Definition refocus (p p' : Program) : Prop :=
  focused_pane p' = focused_pane p \/ focused_pane p' = FE_LIST.

(** What a handler may do besides what [shrinks] allows. *)
Definition steady (p p' : Program) : Prop :=
  grows p p' /\ settles p p' /\ refocus p p' /\ macros p' = macros p.

(** The pending operation is set exactly in Input mode, and the queue
    pane holds the input focus only while the queue has an entry. *)
Definition consistent (p : Program) : Prop :=
  (mode p = MODE_INPUT -> op p <> OP_NONE) /\
  (mode p <> MODE_INPUT -> op p = OP_NONE) /\
  (focused_pane p = FE_QUEUE -> opqueue p <> []).

End Notions.

(* ================================================================== *)
(** ** A small environment for the examples *)

Module Sample.

(** The keys [n] and [d] stand for the name and the description, as in
    the shorthand keys of [mainloop]; [s] is taken for the install state. *)
Definition char_attr (c : ascii) : AttributeEnum :=
  if Ascii.eqb c "n" then A_NAME
  else if Ascii.eqb c "d" then A_DESC
  else if Ascii.eqb c "s" then A_INSTALLSTATE
  else A_NONE.

Definition attr_char (a : AttributeEnum) : ascii :=
  match a with
  | A_NAME => "n" | A_DESC => "d" | A_INSTALLSTATE => "s" | A_NONE => " "
  end%char.

#[export] Instance attrinfo : AttributeInfo :=
  {| chartoattr := char_attr; attrtochar := attr_char |}.

(** A stand-in for the regular expression library, enough to run the
    examples.  A pattern is a sequence of atoms, each a character or a
    bracket expression and each followed by a plus sign or not.  A
    bracket expression is the set of the characters between its
    brackets: ranges are not read, nor is a class name, which the
    library reads as one only inside the brackets of a bracket
    expression.  An opening bracket that is never closed is a syntax
    error. *)
Inductive atom : Type := Chr (c : ascii) | Among (cs : list ascii).

Record re : Type := mkRe { re_icase : bool; re_items : list (atom * bool) }.

(** The characters up to the closing bracket, and what follows it. *)
Fixpoint bracket (s : string) (acc : list ascii)
    : option (list ascii * string) :=
  match s with
  | EmptyString => None
  | String c t =>
      if Ascii.eqb c "]" then Some (rev acc, t) else bracket t (c :: acc)
  end.

Definition plus_after (s : string) : bool * string :=
  match s with
  | String "+" t => (true, t)
  | _ => (false, s)
  end.

Fixpoint parse (fuel : nat) (s : string) : option (list (atom * bool)) :=
  match s, fuel with
  | EmptyString, _ => Some []
  | String _ _, 0 => None
  | String c t, S f =>
      if Ascii.eqb c "[" then
        match bracket t [] with
        | None => None
        | Some (cs, rest) =>
            let (pl, rest') := plus_after rest in
            option_map (cons (Among cs, pl)) (parse f rest')
        end
      else
        let (pl, rest') := plus_after t in
        option_map (cons (Chr c, pl)) (parse f rest')
  end.

Definition compile_with (icase : bool) (s : string) : option re :=
  option_map (mkRe icase) (parse (String.length s) s).

Definition atom_ok (icase : bool) (a : atom) (c : ascii) : bool :=
  let same x :=
    if icase then Ascii.eqb (Str.to_lower_char x) (Str.to_lower_char c)
    else Ascii.eqb x c in
  match a with
  | Chr x => same x
  | Among cs => existsb same cs
  end.

(** [items] match a prefix of the text, or all of it when [full]. *)
Fixpoint match_here (icase full : bool) (items : list (atom * bool))
    : string -> bool :=
  match items with
  | [] => fun s => if full then (String.length s =? 0) else true
  | (a, pl) :: rest =>
      let k := match_here icase full rest in
      if pl then
        fix more (s : string) : bool :=
          match s with
          | EmptyString => false
          | String c t => atom_ok icase a c && (k t || more t)
          end
      else
        fun s =>
          match s with
          | EmptyString => false
          | String c t => atom_ok icase a c && k t
          end
  end.

Definition rmatch (text : string) (r : re) : bool :=
  match_here (re_icase r) true (re_items r) text.

Fixpoint rsearch (text : string) (r : re) : bool :=
  match_here (re_icase r) false (re_items r) text ||
  match text with
  | EmptyString => false
  | String _ t => rsearch t r
  end.

(** What the compiler makes of the text [[:alnum:]+]: one bracket
    expression, repeated. *)
Definition alnum_pattern : re :=
  mkRe false [(Among [":"; "a"; "l"; "n"; "u"; "m"; ":"]%char, true)].

#[export] Instance xpressive : Xpressive :=
  {| sregex := re;
     compile := compile_with false;
     compile_icase := compile_with true;
     regex_match := rmatch;
     regex_search := rsearch;
     resimple := alnum_pattern;
     resimple_compiled := eq_refl |}.

Definition bash : Package :=
  mkPackage 1 "bash" "The GNU Bourne Again shell" "installed".
Definition fish : Package :=
  mkPackage 2 "fish" "Smart and user friendly shell" "not installed".
Definition zsh : Package :=
  mkPackage 3 "zsh" "A very advanced command interpreter" "not installed".

#[export] Instance environment : Environment :=
  {| alpm_packages := [bash; fish; zsh];
     conf_macros := [("1", "/n:bash")];
     usableheight := 10 |}.

(** The state after start-up in this environment. *)
Definition started : Program :=
  match init 1 constructed with
  | Ok p => p
  | _ => constructed
  end.

(** The sample View with its last entry focused, and that entry queued. *)
Definition at_end : Program :=
  match mainloop 1 [KEY_END] started with
  | Ok p => p
  | _ => started
  end.

Definition queued : Program :=
  match mainloop_step 1 KEY_RIGHT at_end with
  | Ok p => p
  | _ => at_end
  end.

(** The sample state after the filter [fish] was typed and committed. *)
Definition filtered_once : Program :=
  match mainloop 1 (typed "/" "fish") started with
  | Ok p => p
  | _ => started
  end.

(** The sample state with the queue pane focused. *)
Definition queue_focused : Program :=
  match mainloop_step 1 KEY_TAB queued with
  | Ok p => p
  | _ => queued
  end.

(** The sample state with the filter key pressed and nothing typed. *)
Definition entering : Program :=
  match mainloop_step 1 (Char "/") started with
  | Ok p => p
  | _ => started
  end.

(** The sample state with a macro that calls itself. *)
Definition looping : Program :=
  set_macros [("loop", "@loop")] started.

(** A package whose name begins with the letter p. *)
Definition perl : Package :=
  mkPackage 4 "perl" "A highly capable, feature-rich programming language"
    "installed".

End Sample.

(* ================================================================== *)
(** * Properties *)

(** Case analysis on the condition of the first conditional in the goal. *)
Ltac case_if :=
  match goal with
  | |- context [if ?c then _ else _] => destruct c
  end.

(** Case analysis on what the first [match] in a hypothesis inspects. *)
Ltac case_match_in H :=
  match type of H with
  | context [match ?x with _ => _ end] => destruct x eqn:?
  end.

(** ** The standard algorithms *)

Section VecFacts.
Context {A : Type}.
Implicit Types (pred : A -> bool) (v pre rest : list A).

Lemma find_first_split pred rest :
  exists r1 r2,
    rest = r1 ++ r2 /\ List.length r1 = Vec.find_first pred rest /\
    filter (keeps pred) r1 = r1 /\
    (r2 = [] \/ exists x r2', r2 = x :: r2' /\ pred x = true).
Proof.
  induction rest as [|y t IH]; simpl.
  - exists [], []. repeat split; auto.
  - destruct (pred y) eqn:Hy.
    + exists [], (y :: t). repeat split; auto. right. eauto.
    + destruct IH as (r1 & r2 & -> & Hl & Hf & Hr).
      exists (y :: r1), r2. simpl. unfold keeps at 1. rewrite Hy. simpl.
      repeat split; auto. now rewrite Hf.
Qed.

Lemma find_if_app pred pre rest :
  Vec.find_if pred (List.length pre) (pre ++ rest)
  = List.length pre + Vec.find_first pred rest.
Proof.
  unfold Vec.find_if. rewrite skipn_app, skipn_all, Nat.sub_diag. reflexivity.
Qed.

Lemma erase_app pre x rest :
  Vec.erase (List.length pre) (pre ++ x :: rest) = pre ++ rest.
Proof.
  unfold Vec.erase.
  rewrite firstn_app, firstn_all, Nat.sub_diag, skipn_app, skipn_all2 by (simpl; lia).
  replace (S (List.length pre) - List.length pre) with 1 by lia.
  simpl. now rewrite app_nil_r.
Qed.

Lemma erase_while_app pred : forall fuel pre rest,
  List.length rest <= fuel ->
  Vec.erase_while fuel pred
    (Vec.find_if pred (List.length pre) (pre ++ rest)) (pre ++ rest)
  = pre ++ filter (keeps pred) rest.
Proof.
  induction fuel as [|f IH]; intros pre rest Hlen.
  - destruct rest; [|simpl in Hlen; lia].
    rewrite find_if_app. simpl. rewrite app_nil_r, Nat.add_0_r, Nat.eqb_refl.
    reflexivity.
  - rewrite find_if_app.
    destruct (find_first_split pred rest) as (r1 & r2 & -> & Hl & Hf & Hr).
    rewrite <- Hl. cbn [Vec.erase_while].
    destruct Hr as [-> | (x & r2' & -> & Hx)].
    + rewrite !app_nil_r, <- length_app, Nat.eqb_refl, Hf. reflexivity.
    + rewrite <- length_app.
      replace (List.length (pre ++ r1) =? List.length (pre ++ r1 ++ x :: r2'))
        with false
        by (symmetry; apply Nat.eqb_neq; rewrite !length_app; simpl; lia).
      rewrite app_assoc, erase_app, IH.
      * rewrite filter_app, Hf. simpl. unfold keeps at 2. rewrite Hx. simpl.
        now rewrite <- app_assoc.
      * rewrite length_app in Hlen. simpl in Hlen. lia.
Qed.

(** The removal loop removes exactly the elements [pred] holds for. *)
Lemma remove_loop_filter pred v :
  Vec.remove_loop pred v = filter (keeps pred) v.
Proof.
  unfold Vec.remove_loop.
  exact (erase_while_app pred (List.length v) [] v (le_n _)).
Qed.

End VecFacts.

(** ** The filter handler *)

Section FilterFacts.
Context {AI : AttributeInfo} {RE : Xpressive}.

Lemma fold_left_orb {B : Type} (f : B -> bool) (l : list B) (b : bool) :
  fold_left (fun found x => found || f x) l b = b || existsb f l.
Proof.
  revert b. induction l as [|x t IH]; intro b; simpl.
  - now rewrite orb_false_r.
  - now rewrite IH, orb_assoc.
Qed.

(** [Filter::matches] holds when no active attribute contains the
    phrase. *)
Lemma matches_attr_contains attrs a phrase :
  Filter.matches attrs a phrase = negb (attr_contains attrs a phrase).
Proof.
  unfold Filter.matches, Filter.found_in, attr_contains, contains.
  now rewrite fold_left_orb.
Qed.

Lemma all_ascii_In a : In a all_ascii.
Proof.
  unfold all_ascii. rewrite <- (ascii_nat_embedding a).
  apply in_map, in_seq. pose proof (nat_ascii_bounded a). lia.
Qed.

Lemma same_letter_check :
  forallb (fun a => forallb (fun b =>
     Bool.eqb (Ascii.eqb (Str.to_lower_char a) (Str.to_lower_char b))
              (same_letter a b)) all_ascii) all_ascii = true.
Proof. vm_compute. reflexivity. Qed.

(** Two characters are lower-cased to the same one exactly when they are
    the same letter. *)
Lemma to_lower_char_eqb a b :
  Ascii.eqb (Str.to_lower_char a) (Str.to_lower_char b) = same_letter a b.
Proof.
  pose proof same_letter_check as H.
  rewrite forallb_forall in H. specialize (H a (all_ascii_In a)).
  rewrite forallb_forall in H. specialize (H b (all_ascii_In b)).
  now apply Bool.eqb_prop in H.
Qed.

Lemma prefix_to_lower n s :
  String.prefix (Str.to_lower n) (Str.to_lower s) = opens_with n s.
Proof.
  revert s. induction n as [|a n IH]; intros [|b s]; try reflexivity.
  cbn [Str.to_lower String.prefix opens_with].
  rewrite <- to_lower_char_eqb, <- IH.
  destruct (ascii_dec _ _) as [E|E].
  - rewrite E, Ascii.eqb_refl. reflexivity.
  - apply Ascii.eqb_neq in E. rewrite E. reflexivity.
Qed.

Lemma find_unfold n s :
  Str.find n s = if String.prefix n s then Some 0
                 else match s with
                      | EmptyString => None
                      | String _ t => option_map S (Str.find n t)
                      end.
Proof. destruct s; reflexivity. Qed.

(** What [std::string::find] on the lower-cased strings decides. *)
Lemma contains_to_lower n s :
  contains (Str.to_lower n) (Str.to_lower s) = mentions n s.
Proof.
  unfold contains. induction s as [|b s IH].
  - rewrite find_unfold, prefix_to_lower. cbn [mentions Str.to_lower].
    destruct (opens_with n ""); reflexivity.
  - rewrite find_unfold, prefix_to_lower. cbn [mentions].
    destruct (opens_with n (String b s)); [reflexivity|].
    cbn [Str.to_lower orb]. rewrite <- IH.
    destruct (Str.find _ _); reflexivity.
Qed.

Lemma found_in_mentioned attrs a phrase :
  Filter.found_in attrs a (Str.to_lower phrase) = mentioned_in attrs a phrase.
Proof.
  unfold Filter.found_in, mentioned_in. rewrite fold_left_orb. cbn [orb].
  induction attrs as [|attr attrs IH]; [reflexivity|].
  cbn [existsb]. rewrite IH, <- contains_to_lower. reflexivity.
Qed.

Lemma found_re_pattern attrs a needle :
  Filter.found_re attrs a needle = pattern_in attrs a needle.
Proof. unfold Filter.found_re, pattern_in. now rewrite fold_left_orb. Qed.

Lemma filterpackages_view str p fl neg phrase :
  split_filter str = (fl, neg, phrase) ->
  filteredpackages (filterpackages str p) =
    if is_empty phrase then filteredpackages p
    else match filter_view neg phrase (filter_attrs fl) (filteredpackages p) with
         | Some v => v
         | None => filteredpackages p
         end.
Proof.
  intro Hs. unfold filterpackages, filter_attrs. rewrite Hs.
  destruct (is_empty phrase); [reflexivity|].
  destruct (is_empty fl); cbn;
    match goal with |- context [filter_view ?a ?b ?c ?d] =>
      destruct (filter_view a b c d) end; try reflexivity;
    unfold is_empty; case_if; reflexivity.
Qed.

Lemma filterpackages_attrlist str p fl neg phrase :
  split_filter str = (fl, neg, phrase) ->
  attrlist (filterpackages str p) =
    if is_empty phrase then Filter.clearattrs else filter_attrs fl.
Proof.
  intro Hs. unfold filterpackages, filter_attrs. rewrite Hs.
  destruct (is_empty phrase); [reflexivity|].
  destruct (is_empty fl); cbn;
    match goal with |- context [filter_view ?a ?b ?c ?d] =>
      destruct (filter_view a b c d) end; try reflexivity;
    unfold is_empty; case_if; reflexivity.
Qed.

(** C4.  A committed filter whose phrase is handed to the pattern
    compiler and rejected by it leaves the View and the recorded filter
    description as they were. *)
Theorem invalid_pattern_keeps_view_and_description str p fl neg phrase :
  split_filter str = (fl, neg, phrase) ->
  regex_match phrase resimple = false ->
  compile_icase phrase = None ->
  filteredpackages (filterpackages str p) = filteredpackages p /\
  searchphrases (filterpackages str p) = searchphrases p.
Proof.
  intros Hs Hsimple Hbad. unfold filterpackages. rewrite Hs.
  destruct (is_empty phrase); [split; reflexivity|].
  unfold filter_view. rewrite Hsimple, Hbad.
  destruct (is_empty fl); split; reflexivity.
Qed.

(** C6 as amended.  After a committed filter the active selection is the
    default, name and description, unless both the fields prefix and the
    phrase are non-empty, in which case it is the selection the prefix
    names; the selection that was active before plays no part. *)
Theorem filter_selection_after str p fl neg phrase :
  split_filter str = (fl, neg, phrase) ->
  attrlist (filterpackages str p) =
    if is_empty fl || is_empty phrase then [A_NAME; A_DESC]
    else Filter.setattrs fl.
Proof.
  intro Hs. rewrite (filterpackages_attrlist _ _ _ _ _ Hs). unfold filter_attrs.
  destruct (is_empty fl), (is_empty phrase); reflexivity.
Qed.

(** C1.  A committed filter with a non-empty phrase leaves in the View
    exactly the entries that are not excluded, in the order they had.
    When the phrase is taken literally, a filter that is not negated
    keeps the entries with the phrase in the text of an active attribute,
    letter case aside, and removes the others; a negated filter removes
    those entries and keeps the others.  When the phrase is compiled, the
    same holds with the pattern being found in the text of an active
    attribute. *)
Theorem filter_keeps_what_is_not_excluded str p fl neg phrase :
  split_filter str = (fl, neg, phrase) ->
  is_empty phrase = false ->
  let attrs := filter_attrs fl in
  let v := filteredpackages p in
  let v' := filteredpackages (filterpackages str p) in
  (regex_match phrase resimple = true ->
   v' = filter (fun a => if is_empty neg
                         then mentioned_in attrs a phrase
                         else negb (mentioned_in attrs a phrase)) v) /\
  (forall needle,
     regex_match phrase resimple = false ->
     compile_icase phrase = Some needle ->
     v' = filter (fun a => if is_empty neg
                           then pattern_in attrs a needle
                           else negb (pattern_in attrs a needle)) v).
Proof.
  intros Hs Hne. cbv zeta.
  rewrite (filterpackages_view _ _ _ _ _ Hs), Hne. unfold filter_view. split.
  - intro Hm. rewrite Hm, remove_loop_filter. apply filter_ext. intro a.
    unfold keeps.
    destruct (is_empty neg);
      unfold FilterH.notmatches, FilterH.matches, Filter.matches;
      rewrite found_in_mentioned; [apply negb_involutive|reflexivity].
  - intros needle Hm Hc. rewrite Hm, Hc, remove_loop_filter.
    apply filter_ext. intro a. unfold keeps.
    destruct (is_empty neg);
      unfold FilterH.notmatchesre, FilterH.matchesre, Filter.matchesre;
      rewrite found_re_pattern; [apply negb_involutive|reflexivity].
Qed.

End FilterFacts.

(** ** The search handler *)

Section SearchFacts.
Context {AI : AttributeInfo} {RE : Xpressive}.

(** C10.  A committed search with a non-empty phrase computes its start
    position as the focused index plus one without looking at the size of
    the View: the start lies within the View only if the View has an
    entry, and on an empty View it lies beyond the end, where the scan is
    undefined. *)
Theorem search_start_needs_entry str p :
  is_empty (search_phrase str) = false ->
  search_begin p = focusedindex (list_pane p) + 1 /\
  (search_begin p <= List.length (filteredpackages p) ->
   filteredpackages p <> []) /\
  (filteredpackages p = [] ->
   List.length (filteredpackages p) < search_begin p /\
   searchpackages str p = Undefined).
Proof.
  intro Hne. unfold search_begin. split; [reflexivity|]. split.
  - intros Hle Hnil. rewrite Hnil in Hle. simpl in Hle. lia.
  - intro Hnil. split; [rewrite Hnil; simpl; lia|].
    unfold searchpackages, search_phrase in *.
    destruct (split_search str) as [[fl phrase]|]; rewrite Hne;
      unfold search_begin; cbn; rewrite Hnil, Nat.add_1_r; reflexivity.
Qed.

End SearchFacts.

(** ** The exec handler *)

Section ExecFacts.
Implicit Types (s t g d pre post x : string) (c : ascii).

Lemma prefix_cons a s1 b s2 :
  String.prefix (String a s1) (String b s2) =
    if ascii_dec a b then String.prefix s1 s2 else false.
Proof. reflexivity. Qed.

Lemma starts_p_cons c t : starts_p (String c t) = Ascii.eqb c "p".
Proof. destruct c as [[] [] [] [] [] [] [] []]; reflexivity. Qed.

Lemma prefix_tok c t : String.prefix "%p" (String c t) = hit c t.
Proof.
  unfold hit. rewrite prefix_cons.
  destruct (ascii_dec "%" c) as [<-|Hc].
  - rewrite Ascii.eqb_refl. cbn [andb].
    destruct t as [|c' t']; [reflexivity|].
    rewrite prefix_cons, starts_p_cons.
    destruct (ascii_dec "p" c') as [<-|Hc'].
    + now destruct t'.
    + symmetry. apply Ascii.eqb_neq. congruence.
  - replace (Ascii.eqb c "%") with false; [reflexivity|].
    symmetry. apply Ascii.eqb_neq. congruence.
Qed.

Lemma find_cons c t :
  Str.find "%p" (String c t) =
    if hit c t then Some 0 else option_map S (Str.find "%p" t).
Proof.
  change (Str.find "%p" (String c t)) with
    (if String.prefix "%p" (String c t) then Some 0
     else option_map S (Str.find "%p" t)).
  now rewrite prefix_tok.
Qed.

Lemma find_nil : Str.find "%p" "" = None.
Proof. reflexivity. Qed.

Lemma hit_inv c t :
  hit c t = true -> c = "%"%char /\ exists t', t = String "p" t'.
Proof.
  unfold hit. intro H. apply andb_prop in H as [Hc Ht].
  apply Ascii.eqb_eq in Hc. split; [assumption|].
  destruct t as [|c' t']; [discriminate|].
  rewrite starts_p_cons in Ht. apply Ascii.eqb_eq in Ht as ->. eauto.
Qed.

Lemma app_nil_r_s s : (s ++ "")%string = s.
Proof. induction s; simpl; congruence. Qed.

Lemma app_assoc_s s t x : ((s ++ t) ++ x)%string = (s ++ t ++ x)%string.
Proof. induction s; simpl; congruence. Qed.

Lemma length_app_s s t :
  String.length (s ++ t) = String.length s + String.length t.
Proof. induction s; simpl; congruence. Qed.

Lemma ends_pct_app s t :
  ends_pct (s ++ t) = match t with EmptyString => ends_pct s | _ => ends_pct t end.
Proof.
  induction s as [|c s IH]; simpl.
  - now destruct t.
  - rewrite IH. destruct s; simpl; destruct t; reflexivity.
Qed.

(** Where the first token of [pre ++ x] lies when [pre] has none. *)
Lemma find_app_clean pre x :
  Str.find "%p" pre = None ->
  Str.find "%p" (pre ++ x) =
    if ends_pct pre && starts_p x then Some (String.length pre - 1)
    else option_map (Nat.add (String.length pre)) (Str.find "%p" x).
Proof.
  induction pre as [|c pre IH]; intro Hn.
  - simpl. now destruct (Str.find "%p" x).
  - rewrite find_cons in Hn. destruct (hit c pre) eqn:Hh; [discriminate|].
    destruct (Str.find "%p" pre) eqn:Hf; [discriminate|].
    specialize (IH eq_refl).
    change ((String c pre ++ x)%string) with (String c (pre ++ x)).
    rewrite find_cons, IH.
    destruct pre as [|c' pre'].
    + simpl. unfold hit.
      destruct (Ascii.eqb c "%"), (starts_p x), (Str.find "%p" x); reflexivity.
    + change (hit c (String c' pre' ++ x)) with (hit c (String c' pre')).
      rewrite Hh.
      change (ends_pct (String c (String c' pre'))) with (ends_pct (String c' pre')).
      destruct (ends_pct (String c' pre') && starts_p x); simpl.
      * now rewrite Nat.sub_0_r.
      * now destruct (Str.find "%p" x).
Qed.

(** The string around its first token. *)
Lemma find_split s k :
  Str.find "%p" s = Some k ->
  exists pre post,
    s = (pre ++ String "%" (String "p" post))%string /\
    String.length pre = k /\ Str.find "%p" pre = None.
Proof.
  revert k. induction s as [|c t IH]; intros k Hf; [discriminate|].
  rewrite find_cons in Hf. destruct (hit c t) eqn:Hh.
  - injection Hf as <-. apply hit_inv in Hh as (-> & t' & ->).
    exists "", t'. repeat split; reflexivity.
  - destruct (Str.find "%p" t) as [k'|] eqn:Ht; [|discriminate].
    injection Hf as <-. destruct (IH k' eq_refl) as (pre & post & -> & Hl & Hn).
    exists (String c pre), post. simpl. repeat split; [congruence|].
    rewrite find_cons, Hn.
    replace (hit c pre) with false; [reflexivity|].
    unfold hit, starts_p in *. destruct (Ascii.eqb c "%"); [|reflexivity].
    simpl in *. destruct pre as [|c' pre']; [reflexivity|]. exact (eq_sym Hh).
Qed.

Lemma replace_app pre n g x :
  Str.replace (String.length pre) n g (pre ++ x) = (pre ++ g ++ Str.drop n x)%string.
Proof.
  induction pre as [|c pre IH]; simpl.
  - now destruct x.
  - now rewrite IH.
Qed.

Lemma replace_at_token pre g post :
  Str.replace (String.length pre) 2 g (pre ++ String "%" (String "p" post))
  = (pre ++ g ++ post)%string.
Proof. now rewrite replace_app. Qed.

Lemma replace_all_cons g c t :
  replace_all g (String c t) =
    if hit c t then (g ++ replace_all g (Str.drop 1 t))%string
    else String c (replace_all g t).
Proof.
  unfold hit. destruct t as [|c' t'].
  - simpl. now rewrite andb_false_r.
  - rewrite starts_p_cons. cbn [replace_all Str.drop].
    destruct (Ascii.eqb_spec c' "p") as [->|Hn].
    + rewrite andb_true_r. reflexivity.
    + rewrite andb_false_r.
      destruct c' as [[] [] [] [] [] [] [] []]; try reflexivity; congruence.
Qed.

Lemma replace_all_clean g s :
  Str.find "%p" s = None -> replace_all g s = s.
Proof.
  induction s as [|c t IH]; intro Hn; [reflexivity|].
  rewrite find_cons in Hn. rewrite replace_all_cons.
  destruct (hit c t); [discriminate|].
  destruct (Str.find "%p" t); [discriminate|]. now rewrite IH.
Qed.

Lemma replace_all_split g pre post :
  Str.find "%p" pre = None ->
  replace_all g (pre ++ String "%" (String "p" post))
  = (pre ++ g ++ replace_all g post)%string.
Proof.
  induction pre as [|c pre IH]; intro Hn.
  - reflexivity.
  - rewrite find_cons in Hn. destruct (hit c pre) eqn:Hh; [discriminate|].
    destruct (Str.find "%p" pre) eqn:Hf; [discriminate|].
    change ((String c pre ++ String "%" (String "p" post))%string)
      with (String c (pre ++ String "%" (String "p" post))).
    rewrite replace_all_cons.
    replace (hit c (pre ++ String "%" (String "p" post))) with false.
    + now rewrite IH.
    + destruct pre; [|exact (eq_sym Hh)].
      unfold hit. cbn. now rewrite andb_false_r.
Qed.

Section Substitution.
Variable g : string.
Hypothesis g_clean : Str.find "%p" g = None.
Hypothesis g_end : ends_pct g = false.

(** With a name list that is not empty and does not begin with the
    letter p, behind the prefix [d] already dealt with the loop replaces
    the tokens of [s] one after the other. *)
Lemma subst_loop_behind : forall n d s,
  g <> "" -> starts_p g = false ->
  String.length s <= n ->
  Str.find "%p" d = None -> ends_pct d = false ->
  subst_loop n g (d ++ s) = Ok (d ++ replace_all g s)%string.
Proof.
  intros n d s Hg Hp. revert d s.
  induction n as [|n IH]; intros d s Hlen Hd He.
  - destruct s; [|simpl in Hlen; lia].
    simpl. rewrite app_nil_r_s, Hd. reflexivity.
  - destruct (Str.find "%p" s) as [k|] eqn:Hs.
    + destruct (find_split s k Hs) as (pre & post & -> & Hk & Hpre).
      assert (Hfind : Str.find "%p" (d ++ pre ++ String "%" (String "p" post))
                      = Some (String.length (d ++ pre))).
      { rewrite <- app_assoc_s, find_app_clean.
        - rewrite ends_pct_app, andb_false_r, find_cons.
          cbn. now rewrite Nat.add_0_r.
        - rewrite find_app_clean, He, Hpre by assumption. reflexivity. }
      cbn [subst_loop]. rewrite Hfind, <- app_assoc_s, replace_at_token.
      rewrite <- app_assoc_s, IH.
      * rewrite replace_all_split by assumption. now rewrite !app_assoc_s.
      * rewrite length_app_s in Hlen. simpl in Hlen. lia.
      * rewrite app_assoc_s, find_app_clean, He by assumption. cbn [andb option_map].
        rewrite find_app_clean, Hp, andb_false_r, g_clean by assumption.
        reflexivity.
      * rewrite ends_pct_app. destruct g; [congruence|assumption].
    + cbn [subst_loop]. rewrite find_app_clean, He, Hs by assumption.
      cbn. now rewrite replace_all_clean.
Qed.

Lemma pct_before_token_split pre post :
  pct_before_token (pre ++ String "%" (String "p" post)) = false ->
  ends_pct pre = false /\ pct_before_token post = false.
Proof.
  induction pre as [|c pre IH]; intro H.
  - split; [reflexivity|]. cbn in H. exact H.
  - change (pct_before_token (String c pre ++ String "%" (String "p" post)))
      with ((Ascii.eqb c "%" &&
             match (pre ++ String "%" (String "p" post))%string with
             | String c' t' => hit c' t'
             | EmptyString => false
             end)
            || pct_before_token (pre ++ String "%" (String "p" post))) in H.
    apply orb_false_elim in H as [H1 H2].
    destruct (IH H2) as [He Hpost]. split; [|exact Hpost].
    destruct pre as [|c' pre']; [|exact He].
    cbn in H1. cbn. now rewrite andb_true_r in H1.
Qed.

(** When no percent sign stands directly before a token of [s], the
    loop replaces the tokens of [s] one after the other whatever the
    name list begins with, and also when it is empty. *)
Lemma subst_loop_plain : forall n d s,
  pct_before_token s = false ->
  String.length s <= n ->
  Str.find "%p" d = None -> ends_pct d = false ->
  subst_loop n g (d ++ s) = Ok (d ++ replace_all g s)%string.
Proof.
  induction n as [|n IH]; intros d s Hs0 Hlen Hd He.
  - destruct s; [|simpl in Hlen; lia].
    simpl. rewrite app_nil_r_s, Hd. reflexivity.
  - destruct (Str.find "%p" s) as [k|] eqn:Hs.
    + destruct (find_split s k Hs) as (pre & post & -> & Hk & Hpre).
      destruct (pct_before_token_split pre post Hs0) as [Hpe Hpost].
      assert (Hfind : Str.find "%p" (d ++ pre ++ String "%" (String "p" post))
                      = Some (String.length (d ++ pre))).
      { rewrite <- app_assoc_s, find_app_clean.
        - rewrite ends_pct_app, andb_false_r, find_cons.
          cbn. now rewrite Nat.add_0_r.
        - rewrite find_app_clean, He, Hpre by assumption. reflexivity. }
      cbn [subst_loop]. rewrite Hfind, <- app_assoc_s, replace_at_token.
      rewrite <- app_assoc_s, IH.
      * rewrite replace_all_split by assumption. now rewrite !app_assoc_s.
      * exact Hpost.
      * rewrite length_app_s in Hlen. simpl in Hlen. lia.
      * rewrite app_assoc_s, find_app_clean, He by assumption.
        cbn [andb option_map].
        rewrite find_app_clean, Hpe, g_clean by assumption. reflexivity.
      * rewrite ends_pct_app. destruct g; [|assumption].
        rewrite ends_pct_app. destruct pre; assumption.
    + cbn [subst_loop]. rewrite find_app_clean, He, Hs by assumption.
      cbn. now rewrite replace_all_clean.
Qed.

Lemma runp_behind_pct t x :
  Str.find "%p" (String "%" t) = None -> t <> "" -> ends_pct t = false ->
  runp (t ++ x) = false.
Proof.
  induction t as [|c t IH]; intros Hf Hne He; [congruence|].
  rewrite find_cons in Hf. unfold hit in Hf. rewrite starts_p_cons in Hf.
  cbn [Ascii.eqb Bool.eqb andb] in Hf.
  destruct (Ascii.eqb_spec c "p") as [->|Hcp]; [discriminate|].
  cbn [andb] in Hf.
  change (runp (String c t ++ x)) with
    (if Ascii.eqb c "%" then runp (t ++ x) else Ascii.eqb c "p").
  destruct (Ascii.eqb_spec c "%") as [->|Hc].
  - apply IH.
    + destruct (Str.find "%p" (String "%" t)); [discriminate|reflexivity].
    + intros ->. discriminate.
    + destruct t; [discriminate|exact He].
  - apply Ascii.eqb_neq. assumption.
Qed.

Lemma phi_behind x : phi (g ++ x) = phi x.
Proof.
  revert g_clean g_end. generalize g as h.
  induction h as [|c h IH]; intros Hf He; [reflexivity|].
  change (phi (String c h ++ x)) with
    ((if Ascii.eqb c "%" && runp (h ++ x) then 1 else 0) + phi (h ++ x)).
  assert (Hh : Str.find "%p" h = None).
  { rewrite find_cons in Hf. destruct (hit c h); [discriminate|].
    destruct (Str.find "%p" h); [discriminate|reflexivity]. }
  rewrite IH; [|assumption|destruct h; [reflexivity|exact He]].
  destruct (Ascii.eqb_spec c "%") as [->|Hc]; [|reflexivity].
  rewrite runp_behind_pct; [reflexivity|assumption| |].
  - intros ->. discriminate.
  - destruct h; [discriminate|exact He].
Qed.

(** A turn of the loop lowers [phi]. *)
Lemma phi_step : forall s k,
  Str.find "%p" s = Some k ->
  phi (Str.replace k 2 g s) < phi s /\
  (runp (Str.replace k 2 g s) = true -> runp s = true).
Proof.
  induction s as [|c t IH]; intros k Hf; [discriminate|].
  rewrite find_cons in Hf. destruct (hit c t) eqn:Hh.
  - injection Hf as <-. apply hit_inv in Hh as (-> & t' & ->).
    cbn [Str.replace Str.drop]. rewrite phi_behind. cbn. split; [lia|reflexivity].
  - destruct (Str.find "%p" t) as [k'|] eqn:Ht; [|discriminate].
    injection Hf as <-. destruct (IH k' eq_refl) as [Hlt Hrun].
    cbn [Str.replace phi runp].
    destruct (Ascii.eqb c "%"); cbn [andb].
    + split; [|assumption].
      destruct (runp (Str.replace k' 2 g t)) eqn:Hr.
      * rewrite (Hrun eq_refl). lia.
      * destruct (runp t); lia.
    + split; [lia|trivial].
Qed.

Lemma subst_loop_ends : forall n s,
  phi s <= n -> exists r, subst_loop n g s = Ok r.
Proof.
  induction n as [|n IH]; intros s Hphi; cbn [subst_loop];
    destruct (Str.find "%p" s) as [k|] eqn:Hs; eauto.
  - destruct (phi_step s k Hs). lia.
  - apply IH. destruct (phi_step s k Hs). lia.
Qed.

End Substitution.

Lemma phi_le_length s : phi s <= String.length s.
Proof.
  induction s as [|c t IH]; simpl; [lia|].
  destruct (Ascii.eqb c "%" && runp t); lia.
Qed.

Lemma find_app_l s x k :
  Str.find "%p" s = Some k -> Str.find "%p" (s ++ x) = Some k.
Proof.
  intro Hf. destruct (find_split s k Hf) as (pre & post & -> & <- & Hpre).
  rewrite app_assoc_s, find_app_clean by assumption.
  cbn [append starts_p]. rewrite andb_false_r, find_cons. cbn.
  now rewrite Nat.add_0_r.
Qed.

Lemma find_app_r d s k :
  Str.find "%p" s = Some k -> Str.find "%p" (d ++ s) <> None.
Proof.
  intro Hf. induction d as [|c d IH]; [cbn; congruence|].
  change ((String c d ++ s)%string) with (String c (d ++ s)).
  rewrite find_cons. destruct (hit c (d ++ s)); [discriminate|].
  destruct (Str.find "%p" (d ++ s)); [discriminate|congruence].
Qed.

(** A name list with a token in it keeps the loop going for ever. *)
Lemma subst_loop_diverges g : forall n s,
  contains "%p" g = true -> contains "%p" s = true ->
  subst_loop n g s = OutOfFuel.
Proof.
  unfold contains. intros n s Hg. revert s.
  induction n as [|n IH]; intros s Hs; cbn [subst_loop];
    destruct (Str.find "%p" s) as [k|] eqn:Hf; try discriminate; [reflexivity|].
  apply IH.
  destruct (find_split s k Hf) as (pre & post & -> & <- & Hpre).
  rewrite replace_at_token.
  destruct (Str.find "%p" g) as [j|] eqn:Hj; [|discriminate].
  pose proof (find_app_r pre _ _ (find_app_l g post j Hj)) as Hne.
  destruct (Str.find "%p" (pre ++ g ++ post)); [reflexivity|congruence].
Qed.

Lemma subst_loop_more g : forall n m s r,
  subst_loop n g s = Ok r -> n <= m -> subst_loop m g s = Ok r.
Proof.
  induction n as [|n IH]; intros m s r Hr Hle; cbn [subst_loop] in Hr;
    destruct (Str.find "%p" s) as [k|] eqn:Hs; try discriminate.
  - destruct m; cbn [subst_loop]; now rewrite Hs.
  - destruct m as [|m]; [lia|]. cbn [subst_loop]. rewrite Hs.
    apply IH; [assumption|lia].
  - destruct m; cbn [subst_loop]; now rewrite Hs.
Qed.

Lemma find_name_space name :
  Str.find "%p" name = None -> Str.find "%p" (name ++ " ") = None.
Proof.
  intro Hn. rewrite find_app_clean by assumption.
  cbn [starts_p]. now rewrite andb_false_r.
Qed.

Lemma ends_name_space name : ends_pct (name ++ " ") = false.
Proof. now rewrite ends_pct_app. Qed.

Lemma pkgs_clean q :
  (forall a, In a q -> contains "%p" (getname a) = false) ->
  Str.find "%p" (pkgs_of q) = None.
Proof.
  unfold contains. induction q as [|a q IH]; intro Hq; [reflexivity|].
  cbn [pkgs_of]. rewrite find_app_clean.
  - rewrite ends_name_space, IH; [reflexivity|].
    intros b Hb. apply Hq. now right.
  - apply find_name_space. specialize (Hq a (or_introl eq_refl)).
    destruct (Str.find "%p" (getname a)); [discriminate|reflexivity].
Qed.

Lemma pkgs_end q : ends_pct (pkgs_of q) = false.
Proof.
  induction q as [|a q IH]; [reflexivity|].
  cbn [pkgs_of]. rewrite ends_pct_app.
  destruct (pkgs_of q); [apply ends_name_space|assumption].
Qed.

Lemma pkgs_nonempty q : q <> [] -> pkgs_of q <> "".
Proof.
  destruct q as [|a q]; [congruence|]. intros _ H.
  apply (f_equal String.length) in H. cbn [pkgs_of] in H.
  rewrite !length_app_s in H. simpl in H. lia.
Qed.

Lemma pkgs_contains q a :
  In a q -> contains "%p" (getname a) = true ->
  contains "%p" (pkgs_of q) = true.
Proof.
  unfold contains. induction q as [|b q IH]; intros Hin Ha; [contradiction|].
  cbn [pkgs_of]. destruct Hin as [->|Hin].
  - destruct (Str.find "%p" (getname a)) as [k|] eqn:Hk; [|discriminate].
    rewrite app_assoc_s, (find_app_l _ _ _ Hk). reflexivity.
  - specialize (IH Hin Ha).
    destruct (Str.find "%p" (pkgs_of q)) as [k|] eqn:Hk; [|discriminate].
    pose proof (find_app_r (getname b ++ " ") _ _ Hk) as Hne.
    destruct (Str.find "%p" ((getname b ++ " ") ++ pkgs_of q));
      [reflexivity|congruence].
Qed.

(** X20.  When no queued name contains the token, the loop of the exec
    handler ends, within as many turns as the command has characters; the
    command run is then the input with every token replaced by the name
    list, provided that no percent sign stands directly before a token
    of the input, or that the Queue is not empty and the name list does
    not begin with the letter p.  When a queued name contains the token
    and the command contains it too, the loop never ends. *)
Theorem exec_substitution str p :
  let q := opqueue p in
  let pkgs := pkgs_of q in
  ((forall a, In a q -> contains "%p" (getname a) = false) ->
   (exists cmd, forall fuel,
       String.length str <= fuel -> execmd fuel str p = ran str cmd p) /\
   ((q <> [] /\ starts_p pkgs = false) \/ pct_before_token str = false ->
    forall fuel,
      String.length str <= fuel ->
      execmd fuel str p = ran str (replace_all pkgs str) p)) /\
  ((exists a, In a q /\ contains "%p" (getname a) = true) ->
   contains "%p" str = true ->
   forall fuel, execmd fuel str p = OutOfFuel).
Proof.
  cbv zeta. unfold execmd, ran.
  assert (Hq : opqueue (his_add OP_EXEC str p) = opqueue p) by reflexivity.
  rewrite Hq. split.
  - intro Hnames. pose proof (pkgs_clean _ Hnames) as Hc.
    pose proof (pkgs_end (opqueue p)) as He. split.
    + destruct (subst_loop_ends _ Hc He (String.length str) str
                  (phi_le_length str)) as [cmd Hcmd].
      exists cmd. intros fuel Hfuel.
      now rewrite (subst_loop_more _ _ _ _ _ Hcmd Hfuel).
    + intros [[Hne Hp]|Hplain] fuel Hfuel.
      * pose proof (subst_loop_behind _ Hc He fuel "" str
                      (pkgs_nonempty _ Hne) Hp Hfuel eq_refl eq_refl) as Hl.
        cbn [append] in Hl. now rewrite Hl.
      * pose proof (subst_loop_plain _ Hc He fuel "" str
                      Hplain Hfuel eq_refl eq_refl) as Hl.
        cbn [append] in Hl. now rewrite Hl.
  - intros (a & Hin & Ha) Hs fuel.
    now rewrite (subst_loop_diverges _ fuel str (pkgs_contains _ _ Hin Ha) Hs).
Qed.

End ExecFacts.

(** ** The queue *)

Section QueueFacts.
Context {AI : AttributeInfo} {RE : Xpressive} {EN : Environment}.

Lemma Package_eqb_eq a b : Package_eqb a b = true <-> a = b.
Proof.
  unfold Package_eqb. destruct a, b; simpl.
  rewrite !andb_true_iff, Nat.eqb_eq, !String.eqb_eq.
  split; [intros [[[-> ->] ->] ->]; reflexivity | intros [= -> -> -> ->]; auto].
Qed.

Lemma queued_In a q : existsb (Package_eqb a) q = true <-> In a q.
Proof.
  rewrite existsb_exists. split.
  - intros (b & Hb & Heq). apply Package_eqb_eq in Heq. now subst.
  - intro H. exists a. split; [assumption|now apply Package_eqb_eq].
Qed.

Lemma In_insert_sorted {A} (lt : A -> A -> bool) x y l :
  In y (Vec.insert_sorted lt x l) <-> y = x \/ In y l.
Proof.
  induction l as [|z l IH]; simpl.
  - intuition.
  - destruct (lt x z); simpl; [intuition|]. rewrite IH. intuition.
Qed.

Lemma In_sort {A} (lt : A -> A -> bool) (v : list A) y :
  In y (Vec.sort lt v) <-> In y v.
Proof.
  unfold Vec.sort.
  enough (H : forall acc, In y (fold_left (fun acc x => Vec.insert_sorted lt x acc) v acc)
                          <-> In y v \/ In y acc).
  { rewrite H. simpl. intuition. }
  induction v as [|x v IH]; intro acc; simpl.
  - intuition.
  - rewrite IH, In_insert_sorted. intuition.
Qed.

Lemma erase_split {A} i (v : list A) :
  exists a b c, v = a ++ b ++ c /\ Vec.erase i v = a ++ c.
Proof.
  unfold Vec.erase. exists (firstn i v).
  replace (skipn (S i) v) with (skipn 1 (skipn i v))
    by (rewrite skipn_skipn; f_equal).
  pose proof (firstn_skipn i v) as E.
  destruct (skipn i v) as [|x t].
  - exists [], []. split; [symmetry; exact E|reflexivity].
  - exists [x], t. split; [symmetry; exact E|reflexivity].
Qed.

Lemma incl_erase {A} i (v : list A) : incl (Vec.erase i v) v.
Proof.
  destruct (erase_split i v) as (a & b & c & Hv & ->). rewrite Hv.
  intros x Hx. rewrite !in_app_iff in *. tauto.
Qed.

Lemma NoDup_erase {A} i (v : list A) : NoDup v -> NoDup (Vec.erase i v).
Proof.
  destruct (erase_split i v) as (a & b & c & Hv & ->). rewrite Hv.
  clear Hv. induction b as [|x b IH]; [trivial|].
  intro H. apply IH. eapply NoDup_remove_1. exact H.
Qed.

Lemma shrinks_refl p : shrinks p p.
Proof. repeat split. apply incl_refl. Qed.

Lemma shrinks_trans p q r : shrinks p q -> shrinks q r -> shrinks p r.
Proof.
  intros (H1 & H2 & H3) (H4 & H5 & H6). repeat split; try congruence.
  eapply incl_tran; eassumption.
Qed.

Lemma filterpackages_shrinks str p : shrinks p (filterpackages str p).
Proof.
  destruct (split_filter str) as [[fl neg] phrase] eqn:Hs.
  assert (Hframe : opqueue (filterpackages str p) = opqueue p /\
                   packages (filterpackages str p) = packages p).
  { unfold filterpackages. rewrite Hs.
    destruct (is_empty phrase); [split; reflexivity|].
    destruct (is_empty fl); cbn;
      match goal with |- context [filter_view ?a ?b ?c ?d] =>
        destruct (filter_view a b c d) end; try (split; reflexivity);
      unfold is_empty; case_if; split; reflexivity. }
  destruct Hframe as [Hq Hp]. repeat split; try assumption.
  rewrite (filterpackages_view _ _ _ _ _ Hs).
  destruct (is_empty phrase); [apply incl_refl|].
  unfold filter_view.
  destruct (regex_match phrase resimple).
  - rewrite remove_loop_filter. apply incl_filter.
  - destruct (compile_icase phrase); [|apply incl_refl].
    rewrite remove_loop_filter. apply incl_filter.
Qed.

Lemma sortpackages_shrinks str p : shrinks p (sortpackages str p).
Proof.
  unfold sortpackages. repeat case_if; try apply shrinks_refl;
    repeat split; cbn; intros x Hx; try apply In_sort in Hx; assumption.
Qed.

Lemma colorcodepackages_shrinks str p : shrinks p (colorcodepackages str p).
Proof.
  unfold colorcodepackages. repeat case_if; try apply shrinks_refl;
    repeat split; apply incl_refl.
Qed.

Lemma searchpackages_shrinks str p p' :
  searchpackages str p = Ok p' -> shrinks p p'.
Proof.
  unfold searchpackages. intro H.
  destruct (split_search str) as [[fl phrase]|];
    repeat case_match_in H; try discriminate;
    injection H as <-; repeat split; apply incl_refl.
Qed.

Lemma init_curses_shrinks p : shrinks p (init_curses p).
Proof.
  unfold init_curses, setfocus. cbn.
  destruct (opqueue p); repeat split; apply incl_refl.
Qed.

Lemma execmd_shrinks fuel str p p' : execmd fuel str p = Ok p' -> shrinks p p'.
Proof.
  unfold execmd, bind. intro H. case_match_in H; try discriminate.
  injection H as <-.
  eapply shrinks_trans; [|apply init_curses_shrinks].
  repeat split. apply incl_refl.
Qed.

Lemma macro_loop_shrinks exit :
  (forall o p p', exit o p = Ok p' -> shrinks p p') ->
  forall strs p p', macro_loop exit strs p = Ok p' -> shrinks p p'.
Proof.
  intros Hexit. induction strs as [|part rest IH]; intros p p' H; cbn in H.
  - injection H as <-. apply shrinks_refl.
  - destruct (macros_find (Str.trim part) (macros p)) as [cmd|];
      [|injection H as <-; apply shrinks_refl].
    destruct (strtoopt (substring 0 1 cmd)) eqn:Ho;
      try (unfold bind in H;
           match type of H with
           | context [exit ?o ?q] => destruct (exit o q) as [p1| |] eqn:He
           end; try discriminate;
           apply Hexit in He; apply IH in H;
           eapply shrinks_trans; [|exact H];
           eapply shrinks_trans; [|exact He];
           repeat split; apply incl_refl).
    injection H as <-. apply shrinks_refl.
Qed.

Lemma exitinputmode_shrinks : forall fuel o p p',
  exitinputmode fuel o p = Ok p' -> shrinks p p'.
Proof.
  induction fuel as [|f IH]; intros o p p' H; [discriminate|].
  cbn [exitinputmode] in H.
  assert (H0 : shrinks p (set_op OP_NONE (set_mode MODE_STANDARD p)))
    by (repeat split; apply incl_refl).
  eapply shrinks_trans; [exact H0|]. clear H0.
  set (p0 := set_op OP_NONE (set_mode MODE_STANDARD p)) in *. clearbody p0.
  destruct (String.length (contents (inputbuf p0)) =? 0);
    [injection H as <-; apply shrinks_refl|].
  destruct o.
  - injection H as <-.
    eapply shrinks_trans; [apply filterpackages_shrinks|].
    repeat split. apply incl_refl.
  - injection H as <-. apply sortpackages_shrinks.
  - eapply searchpackages_shrinks; eassumption.
  - injection H as <-. apply colorcodepackages_shrinks.
  - eapply execmd_shrinks; eassumption.
  - unfold execmacro_with in H.
    eapply shrinks_trans; [|eapply macro_loop_shrinks; [apply IH|exact H]].
    repeat split. apply incl_refl.
  - injection H as <-. apply shrinks_refl.
Qed.

Lemma execmacro_shrinks fuel str p p' :
  execmacro fuel str p = Ok p' -> shrinks p p'.
Proof.
  unfold execmacro, execmacro_with. intro H.
  eapply shrinks_trans;
    [|eapply macro_loop_shrinks; [apply exitinputmode_shrinks|exact H]].
  repeat split. apply incl_refl.
Qed.

Lemma shrinks_inv p p' : Inv p -> shrinks p p' -> Inv p'.
Proof.
  intros (H1 & H2 & H3 & H4) (Hq & Hp & Hv). unfold Inv.
  rewrite Hq, Hp. repeat split; try assumption.
  eapply incl_tran; eassumption.
Qed.

Lemma shrinks_set_pane p q f b : shrinks p q -> shrinks p (set_pane f b q).
Proof.
  intro H. eapply shrinks_trans; [exact H|].
  destruct f; repeat split; apply incl_refl.
Qed.

Lemma shrinks_focused_move p q d : shrinks p q -> shrinks p (focused_move d q).
Proof. apply shrinks_set_pane. Qed.

Lemma shrinks_setfocus p q f : shrinks p q -> shrinks p (setfocus f q).
Proof.
  intro H. eapply shrinks_trans; [exact H|].
  unfold setfocus. destruct (opqueue q), f; repeat split; apply incl_refl.
Qed.

Lemma shrinks_set_mode p q m : shrinks p q -> shrinks p (set_mode m q).
Proof.
  intro H. eapply shrinks_trans; [exact H|]. repeat split; apply incl_refl.
Qed.

Lemma shrinks_set_quit p q b : shrinks p q -> shrinks p (set_quit b q).
Proof.
  intro H. eapply shrinks_trans; [exact H|]. repeat split; apply incl_refl.
Qed.

Lemma shrinks_set_inputbuf p q b : shrinks p q -> shrinks p (set_inputbuf b q).
Proof.
  intro H. eapply shrinks_trans; [exact H|]. repeat split; apply incl_refl.
Qed.

Lemma shrinks_sethis p q o h : shrinks p q -> shrinks p (sethis o h q).
Proof.
  intro H. eapply shrinks_trans; [exact H|].
  destruct o; repeat split; apply incl_refl.
Qed.

Lemma shrinks_prepinputmode p q o :
  shrinks p q -> shrinks p (prepinputmode o q).
Proof.
  intro H. eapply shrinks_trans; [exact H|]. unfold prepinputmode.
  destruct o; repeat split; apply incl_refl.
Qed.

Create HintDb frame.
#[local] Hint Resolve shrinks_refl shrinks_set_pane shrinks_focused_move
  shrinks_setfocus shrinks_set_mode shrinks_set_quit shrinks_set_inputbuf
  shrinks_sethis shrinks_prepinputmode : frame.

Lemma removeselected_inv p : Inv p -> Inv (removeselected p).
Proof.
  intros (H1 & H2 & H3 & H4). unfold Inv, removeselected. cbn.
  repeat split; try assumption.
  - now apply NoDup_erase.
  - eapply incl_tran; [apply incl_erase|assumption].
Qed.

Lemma clear_queue_inv : forall fuel p p',
  clear_queue fuel p = Ok p' -> Inv p -> Inv p'.
Proof.
  induction fuel as [|f IH]; intros p p' H Hinv; cbn in H;
    destruct (opqueue p) eqn:Hq; try discriminate.
  - now injection H as <-.
  - now injection H as <-.
  - eapply IH; [exact H|]. now apply removeselected_inv.
Qed.

Lemma clearfilter_inv p : Inv p -> Inv (clearfilter p).
Proof.
  intros (H1 & H2 & H3 & H4). unfold Inv, clearfilter. cbn.
  repeat split; try assumption.
  intros x Hx. now apply In_sort in Hx.
Qed.

Lemma init_inv fuel p p' : opqueue p = [] -> init fuel p = Ok p' -> Inv p'.
Proof.
  intros Hq H. unfold init in H. apply execmacro_shrinks in H.
  eapply shrinks_inv; [|exact H]. clear H.
  eapply shrinks_inv;
    [|apply shrinks_trans with
        (q := colorcodepackages
                (String (attrtochar (coloredby (init_curses (loadpkgs p)))) "")
                (init_curses (loadpkgs p)));
      [apply colorcodepackages_shrinks|repeat split; apply incl_refl]].
  eapply shrinks_inv; [|apply init_curses_shrinks].
  unfold Inv, loadpkgs. cbn. rewrite Hq.
  repeat split; try apply incl_refl; [constructor|intros x []].
Qed.

Lemma right_inv fuel p p' :
  Inv p -> mode p = MODE_STANDARD ->
  mainloop_step fuel KEY_RIGHT p = Ok p' -> Inv p'.
Proof.
  intros Hinv Hm H. unfold mainloop_step in H. rewrite Hm in H.
  destruct (focused_pane p) eqn:Hf; [|now injection H as <-].
  destruct (List.length (filteredpackages p) =? 0); [now injection H as <-|].
  destruct (nth_error (filteredpackages p) (focusedindex (list_pane p)))
    as [a|] eqn:Ha; [|discriminate].
  destruct (existsb (Package_eqb a) (opqueue p)) eqn:Hex;
    [now injection H as <-|].
  injection H as <-.
  destruct Hinv as (H1 & H2 & H3 & H4).
  assert (Hnew : Inv (set_opqueue (opqueue p ++ [a]) p)).
  { unfold Inv. cbn. repeat split; try assumption.
    - apply NoDup_app; [assumption|repeat constructor; intros []|].
      intros x Hx [<-|[]]. apply queued_In in Hx. congruence.
    - apply incl_app; [assumption|]. intros x [<-|[]].
      apply H3. eapply nth_error_In. eassumption. }
  eapply shrinks_inv; [exact Hnew|]. unfold focused_move. cbn.
  rewrite Hf. repeat split. apply incl_refl.
Qed.

(** Closes the cases of a turn that only touch fields the invariant does
    not mention, or that run a handler. *)
Ltac frame_case H Hinv :=
  first
    [ congruence
    | injection H as <-; eapply shrinks_inv; [exact Hinv|];
      first [ solve [auto 10 with frame] | repeat split; apply incl_refl ]
    | apply execmacro_shrinks in H; eapply shrinks_inv; eassumption
    | apply exitinputmode_shrinks in H; eapply shrinks_inv; eassumption ].

Lemma standard_char_inv fuel c p p' :
  Inv p -> mode p = MODE_STANDARD ->
  mainloop_step fuel (Char c) p = Ok p' -> Inv p'.
Proof.
  intros Hinv Hm H. unfold mainloop_step in H. rewrite Hm in H.
  destruct (Ascii.eqb_spec c "C") as [->|HC].
  { unfold bind in H. destruct (clear_queue fuel p) as [p1| |] eqn:Hc;
      try discriminate.
    injection H as <-. apply clear_queue_inv in Hc; [|assumption].
    eapply shrinks_inv; [exact Hc|auto with frame]. }
  destruct (Ascii.eqb_spec c "r") as [->|Hr].
  { unfold bind in H. destruct (init fuel (deinit p)) as [p1| |] eqn:Hi;
      try discriminate.
    injection H as <-. apply clearfilter_inv.
    eapply init_inv; [|exact Hi]. reflexivity. }
  destruct (Ascii.eqb_spec c "c") as [->|Hc].
  { injection H as <-. now apply clearfilter_inv. }
  destruct c as [[] [] [] [] [] [] [] []];
    cbv beta iota in H; try congruence;
    try change (is_digit_key _) with true in H;
    try change (is_digit_key _) with false in H;
    cbv beta iota in H; frame_case H Hinv.
Qed.

Lemma step_inv fuel ch p p' :
  Inv p -> mainloop_step fuel ch p = Ok p' -> Inv p'.
Proof.
  intros Hinv H. destruct (mode p) eqn:Hm.
  - destruct ch;
      try (eapply standard_char_inv; eassumption);
      try (eapply right_inv; eassumption);
      unfold mainloop_step in H; rewrite ?Hm in H; try frame_case H Hinv.
    destruct (focused_pane p); [frame_case H Hinv|].
    injection H as <-. apply removeselected_inv in Hinv.
    match goal with |- Inv (match ?x with _ => _ end) => destruct x end;
      [|assumption].
    eapply shrinks_inv; [exact Hinv|auto with frame].
  - destruct ch; unfold mainloop_step in H; rewrite ?Hm in H;
      try frame_case H Hinv;
      destruct (His.empty (gethis (op p) p)); frame_case H Hinv.
  - destruct ch; unfold mainloop_step in H; rewrite ?Hm in H;
      frame_case H Hinv.
Qed.

Lemma reachable_inv p : reachable p -> Inv p.
Proof.
  induction 1 as [fuel p Hi|fuel ch p p' _ IH Hs].
  - eapply init_inv; [|exact Hi]. reflexivity.
  - eapply step_inv; eassumption.
Qed.

Lemma NoDup_map_on {A B} (f : A -> B) (l m : list A) :
  NoDup (map f m) -> incl l m -> NoDup l -> NoDup (map f l).
Proof.
  intros Hm Hincl Hl. induction Hl as [|x l Hx Hl IH]; [constructor|].
  simpl. constructor.
  - intro Hfx. apply in_map_iff in Hfx as (y & Hy & Hyl).
    assert (y = x); [|congruence].
    assert (Hxm : In x m) by (apply Hincl; now left).
    assert (Hym : In y m) by (apply Hincl; now right).
    clear -Hm Hy Hxm Hym. induction m as [|z m IHm]; [contradiction|].
    simpl in Hm. inversion Hm as [|? ? Hz Hm']; subst.
    destruct Hxm as [->|Hxm], Hym as [->|Hym]; auto.
    + exfalso. apply Hz. rewrite <- Hy. now apply in_map.
    + exfalso. apply Hz. rewrite Hy. now apply in_map.
  - apply IH. intros y Hy. apply Hincl. now right.
Qed.

(** The queue-append key on a focused entry that is queued already
    changes nothing. *)
Lemma right_on_queued fuel p a :
  mode p = MODE_STANDARD ->
  nth_error (filteredpackages p) (focusedindex (list_pane p)) = Some a ->
  In a (opqueue p) ->
  mainloop_step fuel KEY_RIGHT p = Ok p.
Proof.
  intros Hm Ha Hin. unfold mainloop_step. rewrite Hm, Ha.
  apply queued_In in Hin. rewrite Hin.
  destruct (focused_pane p); [|reflexivity].
  now destruct (List.length (filteredpackages p) =? 0).
Qed.

(** The queue-append key with the View focused queues the focused
    entry. *)
Lemma right_queues fuel p p' a :
  mode p = MODE_STANDARD -> focused_pane p = FE_LIST ->
  nth_error (filteredpackages p) (focusedindex (list_pane p)) = Some a ->
  mainloop_step fuel KEY_RIGHT p = Ok p' ->
  In a (opqueue p').
Proof.
  intros Hm Hf Ha H. unfold mainloop_step in H. rewrite Hm, Hf, Ha in H.
  destruct (List.length (filteredpackages p) =? 0) eqn:Hl.
  { apply Nat.eqb_eq in Hl. destruct (filteredpackages p); [|discriminate].
    now destruct (focusedindex (list_pane p)). }
  destruct (existsb (Package_eqb a) (opqueue p)) eqn:Hex.
  - injection H as <-. now apply queued_In.
  - injection H as <-. unfold focused_move. cbn. rewrite Hf. cbn.
    apply in_or_app. right. now left.
Qed.

(** C7.  With a catalog whose entries have distinct names, in every
    state the program reaches no name occurs twice in the Queue and no
    entry occurs twice; the queue-append key queues the focused entry,
    and pressed again on that entry it leaves the Queue, and so its
    length, as it is. *)
Theorem queue_has_no_duplicates p :
  NoDup (map getname alpm_packages) ->
  reachable p ->
  NoDup (map getname (opqueue p)) /\
  NoDup (opqueue p) /\
  forall fuel a p1,
    mode p = MODE_STANDARD -> focused_pane p = FE_LIST ->
    nth_error (filteredpackages p) (focusedindex (list_pane p)) = Some a ->
    mainloop_step fuel KEY_RIGHT p = Ok p1 ->
    In a (opqueue p1) /\
    forall p2,
      mode p2 = MODE_STANDARD -> opqueue p2 = opqueue p1 ->
      nth_error (filteredpackages p2) (focusedindex (list_pane p2)) = Some a ->
      mainloop_step fuel KEY_RIGHT p2 = Ok p2.
Proof.
  intros Hnames Hreach.
  destruct (reachable_inv p Hreach) as (H1 & H2 & H3 & H4).
  split; [|split; [assumption|]].
  - eapply NoDup_map_on; [|exact H2|exact H1]. now rewrite H4.
  - intros fuel a p1 Hm Hf Ha Hstep.
    pose proof (right_queues _ _ _ _ Hm Hf Ha Hstep) as Hin.
    split; [assumption|].
    intros p2 Hm2 Hq2 Ha2. apply right_on_queued with (a := a); try assumption.
    now rewrite Hq2.
Qed.

End QueueFacts.

(** ** The macro handler *)

Section MacroFacts.
Context {AI : AttributeInfo} {RE : Xpressive} {EN : Environment}.

Lemma bind_Ok {A} (r : result A) : bind r Ok = r.
Proof. now destruct r. Qed.

Lemma insert_at_end c b :
  pos b = String.length (contents b) ->
  Buf.insert c b = Buf.set (contents b ++ String c "").
Proof.
  intro Hp. unfold Buf.insert, Buf.set. rewrite Hp.
  pose proof (replace_app (contents b) 0 (String c "") "") as H.
  rewrite app_nil_r_s in H. rewrite H, length_app_s. simpl.
  f_equal. lia.
Qed.

(** Typing characters in Input mode with the cursor at the end appends
    them to the buffer. *)
Lemma typing fuel tail : forall chars p,
  mode p = MODE_INPUT -> quit p = false ->
  pos (inputbuf p) = String.length (contents (inputbuf p)) ->
  mainloop fuel (map Char chars ++ tail) p =
  mainloop fuel tail
    (set_inputbuf
       (Buf.set (contents (inputbuf p) ++ string_of_list_ascii chars)) p).
Proof.
  induction chars as [|c chars IH]; intros p Hm Hq Hp.
  - cbn [map app string_of_list_ascii]. rewrite app_nil_r_s.
    f_equal. destruct p as [? ? ? ? ? ? ? ? ? [txt n] ? ? ? ? ? ? ? ? ? ? ? ?].
    cbn in *. subst. reflexivity.
  - cbn [map app mainloop]. rewrite Hq. unfold mainloop_step. rewrite Hm.
    cbn [bind]. rewrite insert_at_end by assumption.
    rewrite IH by (assumption || reflexivity).
    f_equal. destruct p. cbn. now rewrite app_assoc_s.
Qed.

Lemma exitinputmode_entry fuel o text p :
  exitinputmode fuel o (set_inputbuf (Buf.set text) (prepinputmode o p))
  = exitinputmode fuel o (set_inputbuf (Buf.set text) (his_reset o p)).
Proof.
  destruct fuel as [|f]; [reflexivity|].
  cbn [exitinputmode].
  replace (set_op OP_NONE
             (set_mode MODE_STANDARD
                (set_inputbuf (Buf.set text) (prepinputmode o p))))
    with (set_op OP_NONE
            (set_mode MODE_STANDARD
               (set_inputbuf (Buf.set text) (his_reset o p))));
    [reflexivity|].
  unfold prepinputmode, his_reset. destruct p, o; reflexivity.
Qed.

Lemma his_reset_at_end o p :
  his_pos (gethis o p) = List.length (his_v (gethis o p)) ->
  his_reset o p = p.
Proof.
  unfold his_reset. destruct p.
  repeat match goal with h : History |- _ => destruct h end.
  destruct o; cbn; intro H; try rewrite H; reflexivity.
Qed.

Lemma prepinputmode_fields o p :
  mode (prepinputmode o p) = MODE_INPUT /\
  quit (prepinputmode o p) = quit p /\
  inputbuf (prepinputmode o p) = Buf.clear /\
  op (prepinputmode o p) = o.
Proof. unfold prepinputmode. destruct o; repeat split. Qed.

Lemma substring_first c text : substring 0 1 (String c text) = String c "".
Proof. cbn. now destruct text. Qed.

(** C8 as amended.  Typing the rest of a command in Input mode for its
    operation and pressing Enter changes the state as the macro part that
    resolves to the command does once the browse cursor of that
    operation's history has been moved past the end, which entering Input
    mode does and the macro does not; the two agree on states where the
    cursor is there already.  The remaining parts run from the state so
    reached.  A part that does not resolve ends the macro and leaves the
    state as the earlier parts made it.  A macro as a whole first records
    its input in the Macro history and then runs its parts. *)
Theorem macro_part_as_typed fuel part rest p :
  (forall c text,
     mode p = MODE_STANDARD -> quit p = false ->
     macros_find (Str.trim part) (macros p) = Some (String c text) ->
     strtoopt (String c "") <> OP_NONE ->
     let o := strtoopt (String c "") in
     let h := gethis o p in
     bind (mainloop fuel (typed c text) p)
          (macro_loop (exitinputmode fuel) rest)
     = macro_loop (exitinputmode fuel) (part :: rest) (his_reset o p) /\
     (his_pos h = List.length (his_v h) ->
      bind (mainloop fuel (typed c text) p)
           (macro_loop (exitinputmode fuel) rest)
      = macro_loop (exitinputmode fuel) (part :: rest) p)) /\
  (macros_find (Str.trim part) (macros p) = None ->
   macro_loop (exitinputmode fuel) (part :: rest) p = Ok p) /\
  (forall str,
     execmacro fuel str p =
     macro_loop (exitinputmode fuel) (Str.split "," str)
       (his_add OP_MACRO str p)).
Proof.
  split; [|split].
  - intros c text Hm Hq Hfind Hop. cbv zeta.
    assert (Hmain :
      bind (mainloop fuel (typed c text) p)
           (macro_loop (exitinputmode fuel) rest)
      = macro_loop (exitinputmode fuel) (part :: rest)
          (his_reset (strtoopt (String c "")) p)).
    { cbn [macro_loop].
      replace (macros (his_reset (strtoopt (String c "")) p)) with (macros p)
        by (unfold his_reset; destruct (strtoopt (String c "")); reflexivity).
      rewrite Hfind, substring_first.
      change (Str.drop 1 (String c text)) with text.
      unfold typed. cbn [mainloop]. rewrite Hq.
      assert (Hstep : mainloop_step fuel (Char c) p
                      = Ok (prepinputmode (strtoopt (String c "")) p)).
      { unfold mainloop_step. rewrite Hm.
        destruct c as [[] [] [] [] [] [] [] []]; try reflexivity;
          exfalso; apply Hop; reflexivity. }
      rewrite Hstep. cbn [bind].
      destruct (prepinputmode_fields (strtoopt (String c "")) p)
        as (Hpm & Hpq & Hpb & Hpo).
      rewrite typing by (rewrite ?Hpb; congruence || reflexivity).
      rewrite Hpb. cbn [contents Buf.clear append].
      rewrite string_of_list_ascii_of_string.
      cbn [mainloop].
      change (quit (set_inputbuf (Buf.set text)
                      (prepinputmode (strtoopt (String c "")) p)))
        with (quit (prepinputmode (strtoopt (String c "")) p)).
      rewrite Hpq, Hq. unfold mainloop_step.
      change (mode (set_inputbuf (Buf.set text)
                      (prepinputmode (strtoopt (String c "")) p)))
        with (mode (prepinputmode (strtoopt (String c "")) p)).
      change (op (set_inputbuf (Buf.set text)
                    (prepinputmode (strtoopt (String c "")) p)))
        with (op (prepinputmode (strtoopt (String c "")) p)).
      rewrite Hpm, Hpo, exitinputmode_entry.
      destruct (strtoopt (String c "")); try congruence;
        cbn [bind]; now rewrite bind_Ok. }
    split; [exact Hmain|].
    intro Hh. rewrite Hmain. now rewrite his_reset_at_end.
  - intro Hfind. cbn [macro_loop]. now rewrite Hfind.
  - reflexivity.
Qed.

End MacroFacts.

(** ** The attribute selection and the operation keys *)

Section SelectionFacts.
Context {AI : AttributeInfo} {RE : Xpressive}.

Lemma attr_eqb_eq a b : attr_eqb a b = true <-> a = b.
Proof. destruct a, b; simpl; split; congruence. Qed.

Lemma mem_In a l : Filter.mem a l = true <-> In a l.
Proof.
  unfold Filter.mem. rewrite existsb_exists. split.
  - intros (b & Hb & Heq). apply attr_eqb_eq in Heq. now subst.
  - intro H. exists a. split; [assumption|now apply attr_eqb_eq].
Qed.

Lemma setattrs_loop_spec : forall s acc,
  NoDup acc -> ~ In A_NONE acc ->
  NoDup (Filter.setattrs_loop s acc) /\
  forall a, In a (Filter.setattrs_loop s acc) <->
            In a acc \/
            (a <> A_NONE /\
             exists c, In c (list_ascii_of_string s) /\ chartoattr c = a).
Proof.
  induction s as [|c t IH]; intros acc Hnd Hnone; cbn [Filter.setattrs_loop].
  - split; [assumption|]. intro a. split; [now left|].
    intros [H|(_ & c & [] & _)]. assumption.
  - assert (Hstep : forall acc',
              NoDup acc' -> ~ In A_NONE acc' ->
              (forall a, In a acc' <->
                         In a acc \/ (a <> A_NONE /\ chartoattr c = a)) ->
              NoDup (Filter.setattrs_loop t acc') /\
              forall a, In a (Filter.setattrs_loop t acc') <->
                In a acc \/
                (a <> A_NONE /\
                 exists c', In c' (list_ascii_of_string (String c t)) /\
                            chartoattr c' = a)).
    { intros acc' Hnd' Hnone' Hacc'.
      destruct (IH acc' Hnd' Hnone') as [H1 H2]. split; [assumption|].
      intro a. rewrite H2, Hacc'. cbn [list_ascii_of_string In]. split.
      - intros [[H|(Hn & Hc)]|(Hn & c' & Hin & Hc)]; eauto 8.
      - intros [H|(Hn & c' & [<-|Hin] & Hc)]; eauto 8. }
    destruct (attr_eqb (chartoattr c) A_NONE) eqn:Hc.
    + apply attr_eqb_eq in Hc. apply Hstep; try assumption.
      intro a. split; [now left|]. intros [H|(Hn & He)]; congruence.
    + assert (Hc' : chartoattr c <> A_NONE)
        by (intro E; apply attr_eqb_eq in E; congruence).
      destruct (Filter.mem (chartoattr c) acc) eqn:Hm.
      * apply mem_In in Hm. apply Hstep; try assumption.
        intro a. split; [now left|]. intros [H|(Hn & <-)]; assumption.
      * assert (Hnot : ~ In (chartoattr c) acc)
          by (intro E; apply mem_In in E; congruence).
        apply Hstep.
        -- apply NoDup_app; [assumption|repeat constructor; intros []|].
           intros x Hx [<-|[]]. contradiction.
        -- rewrite in_app_iff. intros [H|[H|[]]]; congruence.
        -- intro a. rewrite in_app_iff. cbn [In]. split.
           ++ intros [H|[<-|[]]]; auto.
           ++ intros [H|(Hn & <-)]; auto.
Qed.

(** X1.  The selection [setattrs] builds from a string holds no
    attribute twice and never the sentinel, and it holds exactly the
    attributes that characters of the string stand for. *)
Theorem setattrs_selection s :
  NoDup (Filter.setattrs s) /\
  ~ In A_NONE (Filter.setattrs s) /\
  forall a, In a (Filter.setattrs s) <->
            a <> A_NONE /\
            exists c, In c (list_ascii_of_string s) /\ chartoattr c = a.
Proof.
  destruct (setattrs_loop_spec s [] (NoDup_nil _) (fun H => H)) as [H1 H2].
  unfold Filter.setattrs. split; [assumption|]. split.
  - intro H. apply H2 in H as [[]|(Hn & _)]. congruence.
  - intro a. rewrite H2. split; [intros [[]|H]; assumption|now right].
Qed.

(** X2.  [strtoopt] undoes [optostr] on every operation, and a string
    that [strtoopt] maps to an operation is the text [optostr] gives for
    it: the six keys and the six operations correspond one to one, and
    every other string, the empty one included, maps to none. *)
Theorem strtoopt_optostr :
  (forall o, strtoopt (optostr o) = o) /\
  (forall str, strtoopt str <> OP_NONE -> optostr (strtoopt str) = str).
Proof.
  split.
  - intros []; reflexivity.
  - intros str. unfold strtoopt. cbn [List.find optostr].
    repeat match goal with
           | |- context [String.eqb ?a str] =>
               destruct (String.eqb_spec a str) as [<-|?]
           end; cbn; congruence.
Qed.

Lemma find_empty s : Str.find "" s = Some 0.
Proof. destruct s; reflexivity. Qed.

(** X3.  With an empty selection [matches] and [matchesre] hold for every
    package, whatever the needle; with a selection that is not empty
    [matches] fails for the empty needle, which every text contains. *)
Theorem matches_edge_cases a :
  (forall needle, Filter.matches [] a needle = true) /\
  (forall needle, Filter.matchesre [] a needle = true) /\
  (forall attrs, attrs <> [] -> Filter.matches attrs a "" = false).
Proof.
  repeat split; try reflexivity.
  intros [|attr attrs] Hne; [congruence|].
  rewrite matches_attr_contains. unfold attr_contains, contains.
  cbn [existsb Str.to_lower]. now rewrite find_empty.
Qed.

End SelectionFacts.

(** ** Chains of filters *)

Section FilterChains.
Context {AI : AttributeInfo} {RE : Xpressive}.

Lemma filter_all {A} (l : list A) : filter (fun _ => true) l = l.
Proof. induction l; simpl; congruence. Qed.

Lemma filter_comm {A} (f g : A -> bool) (l : list A) :
  filter f (filter g l) = filter g (filter f l).
Proof.
  induction l as [|x l IH]; [reflexivity|]. simpl.
  destruct (f x) eqn:Hf, (g x) eqn:Hg; simpl; rewrite ?Hf, ?Hg, IH; reflexivity.
Qed.

Lemma filter_idem {A} (f : A -> bool) (l : list A) :
  filter f (filter f l) = filter f l.
Proof.
  induction l as [|x l IH]; [reflexivity|]. simpl.
  destruct (f x) eqn:Hf; simpl; rewrite ?Hf, IH; reflexivity.
Qed.

(** What a committed filter keeps is decided by its text alone. *)
Lemma filter_kernel str :
  exists keep, forall p,
    filteredpackages (filterpackages str p) = filter keep (filteredpackages p).
Proof.
  destruct (split_filter str) as [[fl neg] phrase] eqn:Hs.
  destruct (is_empty phrase) eqn:He.
  { exists (fun _ => true). intro p.
    rewrite (filterpackages_view _ _ _ _ _ Hs), He. now rewrite filter_all. }
  destruct (regex_match phrase resimple) eqn:Hm.
  { eexists. intro p.
    rewrite (filterpackages_view _ _ _ _ _ Hs), He. unfold filter_view.
    rewrite Hm. apply remove_loop_filter. }
  destruct (compile_icase phrase) as [needle|] eqn:Hc.
  - eexists. intro p.
    rewrite (filterpackages_view _ _ _ _ _ Hs), He. unfold filter_view.
    rewrite Hm, Hc. apply remove_loop_filter.
  - exists (fun _ => true). intro p.
    rewrite (filterpackages_view _ _ _ _ _ Hs), He. unfold filter_view.
    rewrite Hm, Hc. now rewrite filter_all.
Qed.

(** X4.  A committed filter leaves a sub-list of the View, chosen by a
    test that depends on the filter text only, since the selection is set
    anew by every filter.  So two filters give the same View in either
    order, and a filter committed twice gives the View it gave the first
    time. *)
Theorem filters_commute str1 str2 :
  (exists keep, forall p,
      filteredpackages (filterpackages str1 p)
      = filter keep (filteredpackages p)) /\
  (forall p,
      filteredpackages (filterpackages str2 (filterpackages str1 p))
      = filteredpackages (filterpackages str1 (filterpackages str2 p))) /\
  (forall p,
      filteredpackages (filterpackages str1 (filterpackages str1 p))
      = filteredpackages (filterpackages str1 p)).
Proof.
  destruct (filter_kernel str1) as [k1 H1].
  destruct (filter_kernel str2) as [k2 H2].
  split; [eauto|]. split; intro p.
  - rewrite H2, H1, H1, H2. apply filter_comm.
  - rewrite H1, H1. apply filter_idem.
Qed.

End FilterChains.

(** ** What the handlers keep *)

Section SteadyFacts.
Context {AI : AttributeInfo} {RE : Xpressive} {EN : Environment}.

Lemma grows_refl p : grows p p.
Proof. intro o. exists []. now rewrite app_nil_r. Qed.

Lemma grows_trans p q r : grows p q -> grows q r -> grows p r.
Proof.
  intros H1 H2 o. destruct (H1 o) as [l1 E1], (H2 o) as [l2 E2].
  exists (l1 ++ l2). now rewrite E2, E1, app_assoc.
Qed.

Lemma steady_refl p : steady p p.
Proof.
  split; [apply grows_refl|]. split; [left; split; reflexivity|].
  split; [left|]; reflexivity.
Qed.

Lemma steady_trans p q r : steady p q -> steady q r -> steady p r.
Proof.
  intros (G1 & S1 & F1 & M1) (G2 & S2 & F2 & M2).
  split; [eapply grows_trans; eassumption|]. split; [|split].
  - destruct S2 as [[a b]|[a b]]; [|right; split; assumption].
    destruct S1 as [[c d]|[c d]]; [left|right]; split; congruence.
  - destruct F2 as [a|a]; [|right; assumption].
    destruct F1 as [c|c]; [left|right]; congruence.
  - congruence.
Qed.

(** Closes [steady p p'] when [p'] is [p] with fields set that [steady]
    does not mention, or with entries added to histories. *)
Ltac steady_fields :=
  split;
  [ let o := fresh "o" in
    intro o; destruct o; cbn;
    first [ eexists; reflexivity | exists []; symmetry; apply app_nil_r ]
  | split; [left; split; reflexivity|split; [left|]; reflexivity] ].

Lemma filterpackages_steady str p : steady p (filterpackages str p).
Proof.
  unfold filterpackages.
  destruct (split_filter str) as [[fl neg] phrase].
  destruct (is_empty phrase); [steady_fields|].
  destruct (is_empty fl); cbn;
    match goal with |- context [filter_view ?a ?b ?c ?d] =>
      destruct (filter_view a b c d) end; try steady_fields;
    unfold is_empty; case_if; steady_fields.
Qed.

Lemma sortpackages_steady str p : steady p (sortpackages str p).
Proof.
  unfold sortpackages. repeat case_if; try apply steady_refl; steady_fields.
Qed.

Lemma colorcodepackages_steady str p : steady p (colorcodepackages str p).
Proof.
  unfold colorcodepackages. repeat case_if; try apply steady_refl; steady_fields.
Qed.

Lemma searchpackages_steady str p p' :
  searchpackages str p = Ok p' -> steady p p'.
Proof.
  unfold searchpackages. intro H.
  destruct (split_search str) as [[fl phrase]|];
    repeat case_match_in H; try discriminate;
    injection H as <-; steady_fields.
Qed.

Lemma init_curses_steady p : steady p (init_curses p).
Proof.
  unfold init_curses, setfocus. cbn.
  split; [intro o; exists []; destruct (opqueue p), o; symmetry; apply app_nil_r|].
  split; [left; destruct (opqueue p); split; reflexivity|].
  split; [right|]; destruct (opqueue p); reflexivity.
Qed.

Lemma execmd_steady fuel str p p' : execmd fuel str p = Ok p' -> steady p p'.
Proof.
  unfold execmd, bind. intro H. case_match_in H; try discriminate.
  injection H as <-.
  eapply steady_trans; [|apply init_curses_steady]. steady_fields.
Qed.

Lemma macro_loop_steady exit :
  (forall o p p', exit o p = Ok p' -> steady p p') ->
  forall strs p p', macro_loop exit strs p = Ok p' -> steady p p'.
Proof.
  intros Hexit. induction strs as [|part rest IH]; intros p p' H; cbn in H.
  - injection H as <-. apply steady_refl.
  - destruct (macros_find (Str.trim part) (macros p)) as [cmd|];
      [|injection H as <-; apply steady_refl].
    destruct (strtoopt (substring 0 1 cmd)) eqn:Ho;
      try (unfold bind in H;
           match type of H with
           | context [exit ?o ?q] => destruct (exit o q) as [p1| |] eqn:He
           end; try discriminate;
           apply Hexit in He; apply IH in H;
           eapply steady_trans; [|exact H];
           eapply steady_trans; [|exact He];
           steady_fields).
    injection H as <-. apply steady_refl.
Qed.

Lemma entry_settles p :
  grows p (set_op OP_NONE (set_mode MODE_STANDARD p)) /\
  refocus p (set_op OP_NONE (set_mode MODE_STANDARD p)) /\
  macros (set_op OP_NONE (set_mode MODE_STANDARD p)) = macros p.
Proof.
  split; [intro o; exists []; destruct o; symmetry; apply app_nil_r|].
  split; [left|]; reflexivity.
Qed.

(** [exitinputmode] returns in Standard mode with no operation pending. *)
Lemma exitinputmode_steady : forall fuel o p p',
  exitinputmode fuel o p = Ok p' ->
  steady (set_op OP_NONE (set_mode MODE_STANDARD p)) p'.
Proof.
  induction fuel as [|f IH]; intros o p p' H; [discriminate|].
  cbn [exitinputmode] in H.
  set (p0 := set_op OP_NONE (set_mode MODE_STANDARD p)) in *.
  assert (Hp0 : mode p0 = MODE_STANDARD /\ op p0 = OP_NONE) by (split; reflexivity).
  clearbody p0.
  destruct (String.length (contents (inputbuf p0)) =? 0);
    [injection H as <-; apply steady_refl|].
  destruct o.
  - injection H as <-.
    eapply steady_trans; [apply filterpackages_steady|]. steady_fields.
  - injection H as <-. apply sortpackages_steady.
  - eapply searchpackages_steady; eassumption.
  - injection H as <-. apply colorcodepackages_steady.
  - eapply execmd_steady; eassumption.
  - unfold execmacro_with in H.
    eapply steady_trans; [|eapply macro_loop_steady; [|exact H]].
    + steady_fields.
    + intros o q q' Hq. apply IH in Hq.
      destruct (entry_settles q) as (G & F & M).
      destruct Hq as (G' & S' & F' & M').
      split; [eapply grows_trans; eassumption|]. split; [|split].
      * right. destruct S' as [[a b]|[a b]]; split; assumption.
      * destruct F' as [a|a]; [left|right]; exact a.
      * exact M'.
  - injection H as <-. apply steady_refl.
Qed.

Lemma execmacro_steady fuel str p p' :
  execmacro fuel str p = Ok p' -> steady p p'.
Proof.
  unfold execmacro, execmacro_with. intro H.
  eapply steady_trans; [|eapply macro_loop_steady; [|exact H]].
  - steady_fields.
  - intros o q q' Hq. apply exitinputmode_steady in Hq.
    destruct (entry_settles q) as (G & F & M).
    destruct Hq as (G' & S' & F' & M').
    split; [eapply grows_trans; eassumption|]. split; [|split].
    + right. destruct S' as [[a b]|[a b]]; split; assumption.
    + destruct F' as [a|a]; [left|right]; exact a.
    + exact M'.
Qed.

(** What a character key does in Standard mode. *)
Lemma standard_char_cases fuel c p p' :
  mode p = MODE_STANDARD ->
  mainloop_step fuel (Char c) p = Ok p' ->
  p' = p \/
  (exists d, p' = focused_move d p) \/
  (exists p1, clear_queue fuel p = Ok p1 /\ p' = setfocus FE_LIST p1) \/
  p' = set_mode MODE_HELP p \/
  p' = set_quit true p \/
  (exists p1, init fuel (deinit p) = Ok p1 /\ p' = clearfilter p1) \/
  p' = clearfilter p \/
  (exists o b, o <> OP_NONE /\ p' = set_inputbuf b (prepinputmode o p)) \/
  (exists o, o <> OP_NONE /\ p' = prepinputmode o p) \/
  (exists str, execmacro fuel str p = Ok p').
Proof.
  intros Hm H. unfold mainloop_step in H. rewrite Hm in H.
  destruct (Ascii.eqb_spec c "C") as [->|HC].
  { unfold bind in H. destruct (clear_queue fuel p) as [p1| |] eqn:Hc;
      try discriminate.
    injection H as <-. right. right. left. eauto. }
  destruct (Ascii.eqb_spec c "r") as [->|Hr].
  { unfold bind in H. destruct (init fuel (deinit p)) as [p1| |] eqn:Hi;
      try discriminate.
    injection H as <-. do 5 right. left. eauto. }
  destruct c as [[] [] [] [] [] [] [] []];
    cbv beta iota in H; try congruence;
    try change (is_digit_key _) with true in H;
    try change (is_digit_key _) with false in H;
    cbv beta iota in H;
    first
      [ injection H as <-;
        first
          [ left; reflexivity
          | right; left; eexists; reflexivity
          | do 3 right; left; reflexivity
          | do 4 right; left; reflexivity
          | do 6 right; left; reflexivity
          | do 7 right; left; eexists; eexists; split;
            [|reflexivity]; discriminate
          | do 8 right; left; eexists; split; [|reflexivity]; discriminate ]
      | do 9 right; eexists; exact H ].
Qed.

Lemma removeselected_his p o :
  gethis o (removeselected p) = gethis o p.
Proof. now destruct o. Qed.

Lemma clear_queue_facts : forall fuel p p',
  clear_queue fuel p = Ok p' ->
  opqueue p' = [] /\ (forall o, gethis o p' = gethis o p) /\
  mode p' = mode p /\ op p' = op p.
Proof.
  induction fuel as [|f IH]; intros p p' H; cbn in H;
    destruct (opqueue p) eqn:Hq; try discriminate.
  - injection H as <-. auto.
  - injection H as <-. auto.
  - apply IH in H as (H1 & H2 & H3 & H4). repeat split; assumption.
Qed.

Lemma grows_same p q q' :
  (forall o, his_v (gethis o q') = his_v (gethis o q)) ->
  grows p q -> grows p q'.
Proof. intros Hs Hg o. destruct (Hg o) as [l E]. exists l. now rewrite Hs. Qed.

(** Closes a goal [grows p p'] when [p'] has the entries of [p] in its
    histories. *)
Ltac same_entries :=
  apply grows_same with (2 := grows_refl _);
  let o := fresh "o" in
  intro o;
  unfold focused_move, set_pane, setfocus, prepinputmode, removeselected;
  repeat match goal with x : FilterOperationEnum |- _ => destruct x end; cbn;
  repeat (match goal with
          | |- context [match ?x with _ => _ end] => destruct x
          end; cbn);
  reflexivity.

Lemma init_grows fuel p p' : init fuel p = Ok p' -> grows p p'.
Proof.
  unfold init. intro H. cbv zeta in H.
  apply execmacro_steady in H as [H _].
  assert (G1 : grows p (init_curses (loadpkgs p))).
  { eapply grows_trans; [|apply init_curses_steady].
    unfold loadpkgs. same_entries. }
  set (p1 := init_curses (loadpkgs p)) in *.
  assert (G2 : grows p1 (colorcodepackages
                           (String (attrtochar (coloredby p1)) "") p1))
    by apply colorcodepackages_steady.
  set (p2 := colorcodepackages (String (attrtochar (coloredby p1)) "") p1) in *.
  eapply grows_trans; [exact G1|]. eapply grows_trans; [exact G2|].
  eapply grows_trans; [|exact H]. same_entries.
Qed.

Lemma standard_char_grows fuel c p p' :
  mode p = MODE_STANDARD ->
  mainloop_step fuel (Char c) p = Ok p' -> grows p p'.
Proof.
  intros Hm H.
  apply (standard_char_cases _ _ _ _ Hm) in H
    as [->|[[d ->]|[(p1 & Hc & ->)|[->|[->|[(p1 & Hi & ->)|[->|
        [(o & b & _ & ->)|[(o & _ & ->)|[str Hx]]]]]]]]]].
  - apply grows_refl.
  - same_entries.
  - apply clear_queue_facts in Hc as (_ & Hh & _).
    apply grows_same with (q := p); [|apply grows_refl].
    intro o. rewrite <- Hh. unfold setfocus.
    destruct (opqueue p1), o; reflexivity.
  - same_entries.
  - same_entries.
  - apply init_grows in Hi.
    eapply grows_trans; [|eapply grows_trans; [exact Hi|same_entries]].
    same_entries.
  - same_entries.
  - same_entries.
  - same_entries.
  - exact (proj1 (execmacro_steady _ _ _ _ Hx)).
Qed.

Lemma step_grows fuel ch p p' :
  mainloop_step fuel ch p = Ok p' -> grows p p'.
Proof.
  intro H. destruct (mode p) eqn:Hm.
  - destruct ch;
      try (eapply standard_char_grows; eassumption);
      unfold mainloop_step in H; rewrite ?Hm in H;
      repeat case_match_in H; try discriminate;
      injection H as <-; same_entries.
  - destruct ch; unfold mainloop_step in H; rewrite ?Hm in H;
      try (apply exitinputmode_steady in H as [H _];
           eapply grows_trans; [|exact H]; same_entries);
      destruct (op p); repeat case_match_in H; try discriminate;
      injection H as <-; same_entries.
  - destruct ch; unfold mainloop_step in H; rewrite ?Hm in H;
      injection H as <-; same_entries.
Qed.

Lemma consistent_quiet p p' :
  consistent p ->
  mode p' = mode p -> op p' = op p ->
  focused_pane p' = focused_pane p -> opqueue p' = opqueue p ->
  consistent p'.
Proof.
  intros (C1 & C2 & C3) Hm Ho Hf Hq. unfold consistent.
  rewrite Hm, Ho, Hf, Hq. auto.
Qed.

(** Closes [consistent p'] when [p'] has the mode, the operation, the
    focus and the queue of [p]. *)
Ltac quiet_fields Hc :=
  apply consistent_quiet with (1 := Hc);
  unfold focused_move, set_pane, prepinputmode, removeselected;
  repeat match goal with x : FilterOperationEnum |- _ => destruct x end;
  cbn;
  repeat (match goal with
          | |- context [match ?x with _ => _ end] => destruct x eqn:?
          end; cbn);
  first [reflexivity | congruence].

Lemma consistent_settled p' :
  mode p' = MODE_STANDARD -> op p' = OP_NONE ->
  (focused_pane p' = FE_QUEUE -> opqueue p' <> []) ->
  consistent p'.
Proof.
  intros Hm Ho Hf. unfold consistent. rewrite Hm, Ho.
  repeat split; [discriminate|assumption].
Qed.

Lemma consistent_steady p p' :
  consistent p -> steady p p' -> opqueue p' = opqueue p -> consistent p'.
Proof.
  intros (C1 & C2 & C3) (_ & S & F & _) Hq.
  assert (Hf : focused_pane p' = FE_QUEUE -> opqueue p' <> []).
  { rewrite Hq. destruct F as [F|F]; rewrite F; [assumption|discriminate]. }
  destruct S as [[Hm Ho]|[Hm Ho]].
  - unfold consistent. rewrite Hm, Ho. auto.
  - now apply consistent_settled.
Qed.

Lemma consistent_setfocus f p : consistent p -> consistent (setfocus f p).
Proof.
  intros (C1 & C2 & C3). unfold setfocus.
  destruct (opqueue p) eqn:Hq, f; unfold consistent; cbn; rewrite ?Hq;
    repeat split; try assumption; try discriminate.
Qed.

Lemma consistent_focus_list p p' :
  consistent p ->
  mode p' = mode p -> op p' = op p -> focused_pane p' = FE_LIST ->
  consistent p'.
Proof.
  intros (C1 & C2 & _) Hm Ho Hf. unfold consistent. rewrite Hm, Ho, Hf.
  repeat split; try assumption. discriminate.
Qed.

Lemma init_consistent fuel p p' :
  mode p = MODE_STANDARD -> op p = OP_NONE ->
  init fuel p = Ok p' -> consistent p'.
Proof.
  intros Hm Ho H. unfold init in H. cbv zeta in H.
  pose proof (execmacro_steady _ _ _ _ H) as Hs.
  apply execmacro_shrinks in H as (Hq & _).
  eapply consistent_steady; [|exact Hs|exact Hq].
  set (p1 := init_curses (loadpkgs p)).
  assert (H1 : consistent p1).
  { apply consistent_settled.
    - unfold p1, init_curses, setfocus, loadpkgs. cbn. now destruct (opqueue p).
    - unfold p1, init_curses, setfocus, loadpkgs. cbn. now destruct (opqueue p).
    - unfold p1, init_curses, setfocus, loadpkgs. cbn.
      destruct (opqueue p); discriminate. }
  assert (H2 : consistent (colorcodepackages
                             (String (attrtochar (coloredby p1)) "") p1)).
  { eapply consistent_steady; [exact H1|apply colorcodepackages_steady|].
    apply colorcodepackages_shrinks. }
  eapply consistent_quiet; [exact H2|reflexivity..].
Qed.

Lemma standard_char_consistent fuel c p p' :
  consistent p -> mode p = MODE_STANDARD ->
  mainloop_step fuel (Char c) p = Ok p' -> consistent p'.
Proof.
  intros Hc Hm H.
  assert (Ho : op p = OP_NONE)
    by (apply (proj1 (proj2 Hc)); rewrite Hm; discriminate).
  apply (standard_char_cases _ _ _ _ Hm) in H
    as [->|[[d ->]|[(p1 & Hq & ->)|[->|[->|[(p1 & Hi & ->)|[->|
        [(o & b & Hne & ->)|[(o & Hne & ->)|[str Hx]]]]]]]]]].
  - assumption.
  - quiet_fields Hc.
  - apply clear_queue_facts in Hq as (Hq & _ & Hm1 & Ho1).
    apply consistent_settled; unfold setfocus; rewrite Hq; cbn;
      [congruence|congruence|discriminate].
  - destruct Hc as (_ & _ & C3). unfold consistent. cbn. rewrite Ho.
    split; [discriminate|]. split; [reflexivity|assumption].
  - quiet_fields Hc.
  - apply init_consistent in Hi; [|exact Hm|exact Ho].
    eapply consistent_quiet; [exact Hi|reflexivity..].
  - quiet_fields Hc.
  - destruct Hc as (_ & _ & C3). unfold consistent, prepinputmode.
    destruct o; try congruence; cbn;
      (repeat split; [discriminate|congruence|assumption]).
  - destruct Hc as (_ & _ & C3). unfold consistent, prepinputmode.
    destruct o; try congruence; cbn;
      (repeat split; [discriminate|congruence|assumption]).
  - eapply consistent_steady; [exact Hc|eapply execmacro_steady; exact Hx|].
    apply (execmacro_shrinks _ _ _ _ Hx).
Qed.

Lemma step_consistent fuel ch p p' :
  consistent p -> mainloop_step fuel ch p = Ok p' -> consistent p'.
Proof.
  intros Hc H. destruct (mode p) eqn:Hm.
  - destruct ch;
      try (eapply standard_char_consistent; eassumption);
      unfold mainloop_step in H; rewrite ?Hm in H;
      try (injection H as <-; first [assumption|quiet_fields Hc]).
    + injection H as <-. now apply consistent_setfocus.
    + destruct (focused_pane p) eqn:Hf; [|now injection H as <-].
      destruct (List.length (filteredpackages p) =? 0);
        [now injection H as <-|].
      destruct (nth_error (filteredpackages p) (focusedindex (list_pane p)));
        [|discriminate].
      destruct (existsb (Package_eqb p0) (opqueue p));
        [now injection H as <-|].
      injection H as <-.
      apply consistent_focus_list with (p := p); try assumption;
        unfold focused_move; cbn; rewrite Hf; cbn;
        first [reflexivity|assumption].
    + destruct (focused_pane p) eqn:Hf; [now injection H as <-|].
      injection H as <-.
      assert (Hq' : opqueue (removeselected p)
                    = Vec.erase (focusedindex (queue_pane p)) (opqueue p))
        by reflexivity.
      destruct (Vec.erase (focusedindex (queue_pane p)) (opqueue p)) eqn:Hq.
      * apply consistent_focus_list with (p := p); [assumption|..];
          unfold setfocus; destruct (opqueue (removeselected p)); reflexivity.
      * destruct Hc as (C1 & C2 & C3). unfold consistent.
        split; [exact C1|]. split; [exact C2|].
        intros _. rewrite Hq'. discriminate.
  - destruct ch; unfold mainloop_step in H; rewrite ?Hm in H;
      try (pose proof (exitinputmode_steady _ _ _ _ H) as (_ & S & F & _);
           apply exitinputmode_shrinks in H as (Hq & _);
           apply consistent_settled;
           [ destruct S as [[a _]|[a _]]; exact a
           | destruct S as [[_ b]|[_ b]]; exact b
           | rewrite Hq; destruct F as [F|F]; rewrite F;
             [exact (proj2 (proj2 Hc))|discriminate] ]);
      try (injection H as <-; first [assumption|quiet_fields Hc]);
      destruct (His.empty (gethis (op p) p));
      injection H as <-; try assumption;
      apply consistent_quiet with (1 := Hc);
      destruct (op p) eqn:?; cbn; first [reflexivity|congruence].
  - destruct Hc as (C1 & C2 & C3).
    assert (Ho : op p = OP_NONE) by (apply C2; rewrite Hm; discriminate).
    destruct ch; unfold mainloop_step in H; rewrite ?Hm in H;
      injection H as <-;
      first [ exact (conj C1 (conj C2 C3))
            | apply consistent_settled; [reflexivity|exact Ho|exact C3] ].
Qed.

Lemma reachable_consistent p : reachable p -> consistent p.
Proof.
  induction 1 as [fuel p Hi|fuel ch p p' _ IH Hs].
  - eapply init_consistent; [| |exact Hi]; reflexivity.
  - eapply step_consistent; eassumption.
Qed.

(** X5.  Nothing the main loop does removes or reorders an entry of a
    history: after any sequence of keys each of the six histories is the
    one from before with entries added at its end.  That holds through
    macros, a reload and cancelled input as well. *)
Theorem histories_only_grow fuel keys p p' :
  mainloop fuel keys p = Ok p' ->
  forall o, exists l, his_v (gethis o p') = his_v (gethis o p) ++ l.
Proof.
  revert p. induction keys as [|ch keys IH]; intros p H; cbn in H.
  - injection H as <-. apply grows_refl.
  - destruct (quit p); [injection H as <-; apply grows_refl|].
    unfold bind in H.
    destruct (mainloop_step fuel ch p) as [p1| |] eqn:Hs; try discriminate.
    eapply grows_trans; [eapply step_grows; exact Hs|]. exact (IH p1 H).
Qed.

(** X6.  A committed filter puts its raw input at the end of the Filter
    history whatever comes of it, an empty phrase and a rejected pattern
    included; a committed search and a committed exec command that return
    have done the same with the Search and the Exec history. *)
Theorem commits_are_recorded str p :
  his_v (hisfilter (filterpackages str p)) = his_v (hisfilter p) ++ [str] /\
  (forall p', searchpackages str p = Ok p' ->
              his_v (hissearch p') = his_v (hissearch p) ++ [str]) /\
  (forall fuel p', execmd fuel str p = Ok p' ->
                   his_v (hisexec p') = his_v (hisexec p) ++ [str]).
Proof.
  split; [|split].
  - unfold filterpackages.
    destruct (split_filter str) as [[fl neg] phrase].
    destruct (is_empty phrase); [reflexivity|].
    destruct (is_empty fl); cbn;
      match goal with |- context [filter_view ?a ?b ?c ?d] =>
        destruct (filter_view a b c d) end; try reflexivity;
      unfold is_empty; case_if; reflexivity.
  - unfold searchpackages. intros p' H.
    destruct (split_search str) as [[fl phrase]|];
      repeat case_match_in H; try discriminate;
      injection H as <-; reflexivity.
  - unfold execmd, bind. intros fuel p' H.
    case_match_in H; try discriminate. injection H as <-.
    unfold init_curses, setfocus. cbn. now destruct (opqueue p).
Qed.

(** X7.  In every state the program reaches an operation is pending
    exactly when the mode is Input; so the history of the pending
    operation that the browse keys of Input mode ask [gethis] for always
    exists. *)
Theorem pending_operation_iff_input p :
  reachable p -> (mode p = MODE_INPUT <-> op p <> OP_NONE).
Proof.
  intro H. destruct (reachable_consistent p H) as (C1 & C2 & _).
  split; [exact C1|]. intro Hop.
  destruct (mode p); try reflexivity; exfalso; apply Hop, C2; discriminate.
Qed.

(** X8.  In every state the program reaches the queue pane has the input
    focus only while the Queue has an entry. *)
Theorem queue_focus_needs_entry p :
  reachable p -> focused_pane p = FE_QUEUE -> opqueue p <> [].
Proof. intro H. exact (proj2 (proj2 (reachable_consistent p H))). Qed.

(** X9.  In every state the program reaches every entry of the View and
    every entry of the Queue is an entry of the catalog, and the catalog
    is the one that was loaded. *)
Theorem view_and_queue_within_catalog p :
  reachable p ->
  incl (filteredpackages p) (packages p) /\
  incl (opqueue p) (packages p) /\
  packages p = alpm_packages.
Proof.
  intro H. destruct (reachable_inv p H) as (_ & H2 & H3 & H4). auto.
Qed.

(** X10.  Enter on an empty buffer does what Escape does, whatever
    operation is pending: the mode is Standard again, no operation is
    pending, and nothing else changes, the histories included. *)
Theorem empty_commit_is_cancel fuel o p :
  contents (inputbuf p) = "" ->
  exitinputmode fuel o p = exitinputmode fuel OP_NONE p /\
  exitinputmode (S fuel) o p = Ok (set_op OP_NONE (set_mode MODE_STANDARD p)).
Proof.
  intro He. split; (destruct fuel as [|f]; [try reflexivity|]);
    cbn [exitinputmode];
    change (contents (inputbuf (set_op OP_NONE (set_mode MODE_STANDARD p))))
      with (contents (inputbuf p)); rewrite He; reflexivity.
Qed.

(** X11.  Whenever [exitinputmode] returns, the mode is Standard and no
    operation is pending, also after macros that ran further commands;
    the Queue and the catalog are as before and the View has lost entries
    at most. *)
Theorem exitinputmode_returns_to_standard fuel o p p' :
  exitinputmode fuel o p = Ok p' ->
  mode p' = MODE_STANDARD /\ op p' = OP_NONE /\
  opqueue p' = opqueue p /\ packages p' = packages p /\
  incl (filteredpackages p') (filteredpackages p).
Proof.
  intro H. pose proof (exitinputmode_steady _ _ _ _ H) as (_ & S & _).
  apply exitinputmode_shrinks in H as (Hq & Hp & Hv).
  repeat split; try assumption.
  - destruct S as [[a _]|[a _]]; exact a.
  - destruct S as [[_ b]|[_ b]]; exact b.
Qed.

Lemma macros_his_add o str p : macros (his_add o str p) = macros p.
Proof. now destruct o. Qed.

Lemma length_nonempty s : s <> "" -> (String.length s =? 0) = false.
Proof. destruct s; [congruence|reflexivity]. Qed.

(** X12.  A macro whose command is the macro key followed by its own
    name calls itself without end: [execmacro] on it never returns,
    however much fuel the model is given. *)
Theorem self_calling_macro_never_returns name p :
  name <> "" -> Str.split "," name = [name] -> Str.trim name = name ->
  macros_find name (macros p) = Some (String "@" name) ->
  forall fuel, execmacro fuel name p = OutOfFuel.
Proof.
  intros Hne Hsplit Htrim Hfind fuel. revert p Hfind. unfold execmacro.
  induction fuel as [|f IH]; intros p Hfind;
    unfold execmacro_with; rewrite Hsplit; cbn [macro_loop];
    rewrite macros_his_add, Htrim, Hfind, substring_first;
    change (strtoopt (String "@" "")) with OP_MACRO; cbv beta iota;
    change (Str.drop 1 (String "@" name)) with name.
  - reflexivity.
  - cbn [exitinputmode].
    change (contents (inputbuf
              (set_op OP_NONE
                 (set_mode MODE_STANDARD
                    (set_inputbuf (Buf.set name) (his_add OP_MACRO name p))))))
      with name.
    rewrite (length_nonempty _ Hne), IH; [reflexivity|].
    now rewrite <- Hfind.
Qed.

(** X13.  The reload key empties the Queue and leaves the freshly loaded
    catalog, the macro table of the configuration, the whole catalog as
    the View, sorted by [Filter::cmp] on the attribute the state ends up
    recording as the one sorted by, an empty filter description and the
    first entry focused, whatever the startup macro did to View and
    description: the case of the key runs on into the one that clears
    the filter. *)
Theorem reload_result fuel p p' :
  mode p = MODE_STANDARD ->
  mainloop_step fuel (Char "r") p = Ok p' ->
  opqueue p' = [] /\ packages p' = alpm_packages /\
  macros p' = conf_macros /\
  filteredpackages p'
  = Vec.sort (fun a b => FilterH.cmp a b (sortedby p')) alpm_packages /\
  searchphrases p' = "" /\ focusedindex (list_pane p') = 0.
Proof.
  intros Hm H. unfold mainloop_step in H. rewrite Hm in H.
  unfold bind in H.
  destruct (init fuel (deinit p)) as [p1| |] eqn:Hi; try discriminate.
  injection H as <-. unfold init in Hi. cbv zeta in Hi.
  pose proof (execmacro_steady _ _ _ _ Hi) as (_ & _ & _ & Hmac).
  apply execmacro_shrinks in Hi as (Hq & Hp & _).
  set (p0 := init_curses (loadpkgs (deinit p))) in *.
  assert (H0 : opqueue p0 = [] /\ packages p0 = alpm_packages /\
               macros p0 = conf_macros)
    by (repeat split).
  destruct H0 as (Hq0 & Hp0 & Hm0).
  destruct (colorcodepackages_shrinks
              (String (attrtochar (coloredby p0)) "") p0) as (Hq1 & Hp1 & _).
  destruct (colorcodepackages_steady
              (String (attrtochar (coloredby p0)) "") p0) as (_ & _ & _ & Hm1).
  set (p2 := colorcodepackages (String (attrtochar (coloredby p0)) "") p0) in *.
  assert (E1 : opqueue p1 = [])
    by (transitivity (opqueue p2); [exact Hq|now rewrite Hq1]).
  assert (E2 : packages p1 = alpm_packages)
    by (transitivity (packages p2); [exact Hp|now rewrite Hp1]).
  assert (E3 : macros p1 = conf_macros)
    by (transitivity (macros p2); [exact Hmac|now rewrite Hm1]).
  unfold clearfilter. cbn. rewrite E2. repeat split; assumption || reflexivity.
Qed.

End SteadyFacts.

(** ** Sorting, clearing the filter, searching *)

Section OrderFacts.
Context {AI : AttributeInfo} {RE : Xpressive}.

Lemma insert_sorted_perm {A} (lt : A -> A -> bool) x l :
  Permutation (x :: l) (Vec.insert_sorted lt x l).
Proof.
  induction l as [|y l IH]; simpl; [reflexivity|].
  destruct (lt x y); [reflexivity|].
  rewrite perm_swap. now apply perm_skip.
Qed.

Lemma sort_perm {A} (lt : A -> A -> bool) v : Permutation v (Vec.sort lt v).
Proof.
  unfold Vec.sort.
  enough (H : forall acc,
             Permutation (v ++ acc)
               (fold_left (fun acc x => Vec.insert_sorted lt x acc) v acc)).
  { specialize (H []). now rewrite app_nil_r in H. }
  induction v as [|x v IH]; intro acc; simpl; [reflexivity|].
  rewrite <- IH. rewrite (insert_sorted_perm lt x acc) at 1 || idtac.
  transitivity (v ++ x :: acc).
  - apply Permutation_middle.
  - apply Permutation_app_head. apply insert_sorted_perm.
Qed.

Section Asymmetric.
Context {A : Type} (lt : A -> A -> bool).
Hypothesis lt_asym : forall x y, lt x y = true -> lt y x = false.

Lemma insert_sorted_sorted x l :
  Sorted (fun a b => lt b a = false) l ->
  Sorted (fun a b => lt b a = false) (Vec.insert_sorted lt x l).
Proof.
  induction l as [|y l IH]; intro Hs; simpl.
  - repeat constructor.
  - destruct (lt x y) eqn:Hxy.
    + constructor; [assumption|]. constructor. now apply lt_asym.
    + inversion Hs as [|? ? Hl Hy]; subst.
      constructor; [now apply IH|].
      destruct l as [|z l]; simpl.
      * constructor. assumption.
      * destruct (lt x z); constructor; [assumption|].
        now inversion Hy.
Qed.

Lemma sort_sorted v : Sorted (fun a b => lt b a = false) (Vec.sort lt v).
Proof.
  unfold Vec.sort.
  enough (H : forall acc,
             Sorted (fun a b => lt b a = false) acc ->
             Sorted (fun a b => lt b a = false)
               (fold_left (fun acc x => Vec.insert_sorted lt x acc) v acc)).
  { apply H. constructor. }
  induction v as [|x v IH]; intros acc Hacc; simpl; [assumption|].
  apply IH. now apply insert_sorted_sorted.
Qed.
End Asymmetric.

Lemma ltb_lt s t : String.ltb s t = true <-> String_as_OT.lt s t.
Proof.
  unfold String.ltb. rewrite <- String_as_OT.cmp_lt. unfold String_as_OT.cmp.
  destruct (String.compare s t); split; congruence.
Qed.

Lemma ltb_asym s t : String.ltb s t = true -> String.ltb t s = false.
Proof.
  unfold String.ltb. rewrite (String.compare_antisym s).
  destruct (String.compare t s); simpl; congruence.
Qed.

Lemma not_ltb_trans a b c :
  String.ltb b a = false -> String.ltb c b = false -> String.ltb c a = false.
Proof.
  intros Hba Hcb. destruct (String.ltb c a) eqn:Hca; [|reflexivity].
  apply ltb_lt in Hca.
  destruct (String.compare a b) eqn:E.
  - apply String.compare_eq_iff in E. subst b.
    apply ltb_lt in Hca. congruence.
  - assert (Hab : String_as_OT.lt a b) by (apply String_as_OT.cmp_lt; exact E).
    pose proof (String_as_OT.lt_trans _ _ _ Hca Hab) as H.
    apply ltb_lt in H. congruence.
  - assert (H : String.ltb b a = true).
    { unfold String.ltb. rewrite String.compare_antisym, E. reflexivity. }
    congruence.
Qed.

(** Sorting with [Filter::cmp] bound to an attribute leaves the entries
    in ascending order of the text of that attribute. *)
Lemma sort_ascending attr v :
  ascending attr (Vec.sort (fun a b => FilterH.cmp a b attr) v).
Proof.
  unfold ascending. apply Sorted_StronglySorted.
  - intros a b c Hab Hbc. unfold compareByAttribute in *.
    exact (not_ltb_trans _ _ _ Hab Hbc).
  - apply (sort_sorted (fun a b => FilterH.cmp a b attr)).
    intros x y. apply ltb_asym.
Qed.

Lemma filterpackages_sortedby str p :
  sortedby (filterpackages str p) = sortedby p.
Proof.
  unfold filterpackages. destruct (split_filter str) as [[fl neg] phrase].
  destruct (is_empty phrase); [reflexivity|].
  destruct (is_empty fl); cbn;
    match goal with |- context [filter_view ?a ?b ?c ?d] =>
      destruct (filter_view a b c d) end; try reflexivity;
    unfold is_empty; case_if; reflexivity.
Qed.

(** C3.  A committed sort whose first character that stands for an
    attribute stands for [X] records [X] as the attribute sorted by and
    leaves the View with the entries it had, sorted with the comparison
    of the text of [X]: in ascending order of that text, whichever
    attribute [X] is. *)
Theorem sort_orders_by_attribute str p X :
  first_attr str = X -> X <> A_NONE ->
  sortedby (sortpackages str p) = X /\
  filteredpackages (sortpackages str p)
  = Vec.sort (compareByAttribute X) (filteredpackages p) /\
  Permutation (filteredpackages p) (filteredpackages (sortpackages str p)) /\
  ascending X (filteredpackages (sortpackages str p)).
Proof.
  intros <- Ha. unfold sortpackages.
  destruct str as [|c t]; [exfalso; apply Ha; reflexivity|].
  cbn [String.length Nat.ltb Nat.leb].
  destruct (attr_eqb (first_attr (String c t)) A_NONE) eqn:He.
  { apply attr_eqb_eq in He. congruence. }
  cbn. split; [reflexivity|]. split; [reflexivity|].
  split; [apply sort_perm|apply sort_ascending].
Qed.

(** X14.  A committed sort whose input has no character that stands for
    an attribute changes neither the View nor the attribute recorded as
    the one sorted by. *)
Theorem sort_without_attribute str p :
  first_attr str = A_NONE ->
  sortedby (sortpackages str p) = sortedby p /\
  filteredpackages (sortpackages str p) = filteredpackages p.
Proof.
  intro Ha. unfold sortpackages.
  destruct (String.length str <? 1); [split; reflexivity|].
  rewrite Ha. cbn. split; reflexivity.
Qed.

(** X15.  Clearing the filter puts every catalog entry back into the
    View, in ascending order of the text of the attribute the last sort
    recorded, empties the filter description and focuses the first
    entry; a filter committed before it has no effect on that View. *)
Theorem clearfilter_restores str p :
  Permutation (packages p) (filteredpackages (clearfilter p)) /\
  ascending (sortedby p) (filteredpackages (clearfilter p)) /\
  searchphrases (clearfilter p) = "" /\
  focusedindex (list_pane (clearfilter p)) = 0 /\
  sortedby (clearfilter p) = sortedby p /\
  filteredpackages (clearfilter (filterpackages str p))
  = filteredpackages (clearfilter p).
Proof.
  unfold clearfilter. cbn. repeat split.
  - apply sort_perm.
  - apply sort_ascending.
  - destruct (filterpackages_shrinks str p) as (_ & Hp & _).
    now rewrite Hp, filterpackages_sortedby.
Qed.

Lemma find_first_le {A} (pred : A -> bool) l :
  Vec.find_first pred l <= List.length l.
Proof. induction l as [|x l IH]; simpl; [lia|]. destruct (pred x); lia. Qed.

Lemma find_first_hit {A} (pred : A -> bool) l :
  Vec.find_first pred l <> List.length l ->
  exists a, nth_error l (Vec.find_first pred l) = Some a /\ pred a = true.
Proof.
  induction l as [|x l IH]; simpl; [congruence|].
  destruct (pred x) eqn:Hx; intro H.
  - exists x. split; [reflexivity|assumption].
  - apply IH. congruence.
Qed.

Lemma find_first_none {A} (pred : A -> bool) l :
  (forall a, In a l -> pred a = false) ->
  Vec.find_first pred l = List.length l.
Proof.
  induction l as [|x l IH]; intro H; simpl; [reflexivity|].
  rewrite (H x (or_introl eq_refl)). f_equal. apply IH.
  intros a Ha. apply H. now right.
Qed.

Lemma find_if_hit {A} (pred : A -> bool) b v :
  b <= List.length v ->
  Vec.find_if pred b v <> List.length v ->
  Vec.find_if pred b v < List.length v /\
  exists a, nth_error v (Vec.find_if pred b v) = Some a /\ pred a = true.
Proof.
  unfold Vec.find_if. intros Hb Hne.
  pose proof (find_first_le pred (skipn b v)) as Hle.
  rewrite length_skipn in Hle. split; [lia|].
  destruct (find_first_hit pred (skipn b v)) as (a & Ha & Hp).
  { rewrite length_skipn. lia. }
  exists a. split; [|assumption].
  rewrite <- (firstn_skipn b v) at 1.
  rewrite nth_error_app2; rewrite length_firstn, Nat.min_l by lia; [|lia].
  now replace (b + Vec.find_first pred (skipn b v) - b)
    with (Vec.find_first pred (skipn b v)) by lia.
Qed.

Lemma find_if_none {A} (pred : A -> bool) b v :
  b <= List.length v ->
  (forall a, In a v -> pred a = false) ->
  Vec.find_if pred b v = List.length v.
Proof.
  unfold Vec.find_if. intros Hb H.
  rewrite find_first_none, length_skipn; [lia|].
  intros a Ha. apply H. rewrite <- (firstn_skipn b v).
  apply in_or_app. now right.
Qed.

(** The selection a committed search works with. *)
Lemma search_attrs_eq str p p' :
  searchpackages str p = Ok p' ->
  attrlist p' = match split_search str with
                | Some (fieldlist, _) => Filter.setattrs fieldlist
                | None => Filter.clearattrs
                end.
Proof.
  unfold searchpackages. intro H.
  destruct (split_search str) as [[fl phrase]|];
    repeat case_match_in H; try discriminate;
    injection H as <-; reflexivity.
Qed.

(** The two scans of [searchpackages]: where the iterator ends up. *)
Lemma scan_facts (pred : Package -> bool) b v :
  b <= List.length v ->
  forall it,
    it = (if (Vec.find_if pred b v =? List.length v) && negb (b =? 0)
          then Vec.find_if pred 0 v else Vec.find_if pred b v) ->
    ((it =? List.length v) = false ->
     focusedindex (Box.moveabs it (List.length v)) = it /\
     exists a, nth_error v it = Some a /\ pred a = true) /\
    ((forall a, In a v -> pred a = false) -> (it =? List.length v) = true).
Proof.
  intros Hb it Hit.
  assert (Hin : exists b', b' <= List.length v /\ it = Vec.find_if pred b' v).
  { destruct ((Vec.find_if pred b v =? List.length v) && negb (b =? 0));
      [exists 0|exists b]; split; try assumption; lia. }
  clear Hit. destruct Hin as (b' & Hb' & ->). split.
  - intro Hne. apply Nat.eqb_neq in Hne.
    destruct (find_if_hit pred b' v Hb' Hne) as [Hlt Ha].
    split; [unfold Box.moveabs; cbn; lia|exact Ha].
  - intro Hn. apply Nat.eqb_eq. now apply find_if_none.
Qed.

(** [searchpackages] from the test of the phrase on, [p0] being the state
    with the history and the selection set. *)
Lemma search_tail (p0 : Program) phrase p' :
  (if is_empty phrase then Ok p0
   else
     let v := filteredpackages p0 in
     let pred := fun a => FilterH.matches (attrlist p0) a phrase in
     let begin := search_begin p0 in
     if List.length v <? begin then Undefined
     else
       let it := Vec.find_if pred begin v in
       let it := if (it =? List.length v) && negb (begin =? 0)
                 then Vec.find_if pred 0 v else it in
       if it =? List.length v then Ok p0
       else Ok (set_list_pane (Box.moveabs it (List.length v)) p0)) = Ok p' ->
  filteredpackages p' = filteredpackages p0 /\ opqueue p' = opqueue p0 /\
  (list_pane p' = list_pane p0 \/
   exists a,
     nth_error (filteredpackages p0) (focusedindex (list_pane p')) = Some a /\
     FilterH.matches (attrlist p0) a phrase = true) /\
  ((forall a, In a (filteredpackages p0) ->
              FilterH.matches (attrlist p0) a phrase = false) ->
   list_pane p' = list_pane p0).
Proof.
  destruct (is_empty phrase).
  { intro H. injection H as <-. auto. }
  cbv zeta.
  destruct (List.length (filteredpackages p0) <? search_begin p0) eqn:Hb;
    [discriminate|].
  apply Nat.ltb_ge in Hb.
  destruct (scan_facts (fun a => FilterH.matches (attrlist p0) a phrase)
              _ _ Hb _ eq_refl) as [Hhit Hnone].
  match goal with
  | |- context [if ?c then Vec.find_if ?f 0 ?v else ?e] =>
      set (it := if c then Vec.find_if f 0 v else e) in *
  end.
  destruct (it =? List.length (filteredpackages p0)) eqn:E;
    intro H; injection H as <-.
  - auto.
  - destruct (Hhit eq_refl) as [Hf Ha].
    unfold Box.moveabs in Hf. cbn in Hf. cbn.
    repeat split.
    + right. rewrite Hf. exact Ha.
    + intro Hn. pose proof (Hnone Hn) as E'. congruence.
Qed.

(** X16.  A committed search that returns leaves View and Queue as they
    were.  It either leaves the focus where it was or moves it to an
    entry of the View for which [Filter::matches], the predicate
    [searchpackages] scans with, holds with the phrase and the selection
    of the search; when [Filter::matches] holds for no entry of the View
    the focus stays. *)
Theorem search_outcome str p p' :
  searchpackages str p = Ok p' ->
  filteredpackages p' = filteredpackages p /\ opqueue p' = opqueue p /\
  (list_pane p' = list_pane p \/
   exists a,
     nth_error (filteredpackages p) (focusedindex (list_pane p')) = Some a /\
     FilterH.matches (attrlist p') a (search_phrase str) = true) /\
  ((forall a, In a (filteredpackages p) ->
              FilterH.matches (attrlist p') a (search_phrase str) = false) ->
   list_pane p' = list_pane p).
Proof.
  intro H. pose proof (search_attrs_eq _ _ _ H) as Hattrs.
  rewrite Hattrs. clear Hattrs. revert H.
  unfold searchpackages, search_phrase.
  destruct (split_search str) as [[fl phrase]|];
    intro H; apply search_tail in H; exact H.
Qed.

(** X17.  A committed search that returns leaves the selection it worked
    with: the attributes its fields prefix names, none if the prefix
    names none, and name and description if the input has no prefix; the
    selection from before plays no part. *)
Theorem search_selection_after str p p' :
  searchpackages str p = Ok p' ->
  attrlist p' = match split_search str with
                | Some (fieldlist, _) => Filter.setattrs fieldlist
                | None => [A_NAME; A_DESC]
                end.
Proof. exact (search_attrs_eq str p p'). Qed.

Lemma skipn_nth {A} (v : list A) : forall b a,
  nth_error v b = Some a -> skipn b v = a :: skipn (S b) v.
Proof.
  induction v as [|x v IH]; intros [|b] a H; try discriminate.
  - injection H as ->. reflexivity.
  - cbn [skipn]. now apply IH.
Qed.

Lemma find_if_step {A} (pred : A -> bool) b v a :
  nth_error v b = Some a ->
  Vec.find_if pred b v = if pred a then b else Vec.find_if pred (S b) v.
Proof.
  intro H. unfold Vec.find_if. rewrite (skipn_nth v b a H).
  cbn [Vec.find_first]. destruct (pred a); lia.
Qed.

(** The forward scan of [std::find_if] finds the first index at which
    the predicate holds. *)
Lemma find_seq_find_if (hits : Package -> bool) v : forall n from,
  from + n = List.length v ->
  List.find
    (fun i => match nth_error v i with Some a => hits a | None => false end)
    (seq from n)
  = if Vec.find_if hits from v =? List.length v then None
    else Some (Vec.find_if hits from v).
Proof.
  induction n as [|n IH]; intros from H.
  - assert (from = List.length v) as -> by lia.
    unfold Vec.find_if. rewrite skipn_all. cbn.
    now rewrite Nat.add_0_r, Nat.eqb_refl.
  - destruct (nth_error v from) as [a|] eqn:Ha.
    + cbn [seq List.find]. rewrite Ha, (find_if_step hits from v a Ha).
      destruct (hits a).
      * replace (from =? List.length v) with false; [reflexivity|].
        symmetry. apply Nat.eqb_neq. lia.
      * apply IH. lia.
    + apply nth_error_None in Ha. lia.
Qed.

Lemma find_app_none {A} (f : A -> bool) l1 l2 :
  List.find f l2 = None -> List.find f (l1 ++ l2) = List.find f l1.
Proof.
  intro H. induction l1 as [|x l1 IH]; [exact H|].
  cbn. destruct (f x); [reflexivity|exact IH].
Qed.

Lemma first_hit_from hits from v :
  from <= List.length v ->
  first_hit hits from (List.length v) v
  = if Vec.find_if hits from v =? List.length v then None
    else Some (Vec.find_if hits from v).
Proof. intro H. apply find_seq_find_if. lia. Qed.

(** When the scan from [b] on finds nothing, the scan from the first
    entry finds what there is before [b]. *)
Lemma first_hit_wrap hits b v :
  b <= List.length v ->
  Vec.find_if hits b v = List.length v ->
  first_hit hits 0 b v
  = if Vec.find_if hits 0 v =? List.length v then None
    else Some (Vec.find_if hits 0 v).
Proof.
  intros Hb Hnone. rewrite <- (first_hit_from hits 0 v) by lia.
  unfold first_hit. rewrite !Nat.sub_0_r.
  replace (List.length v) with (b + (List.length v - b)) at 1 by lia.
  rewrite seq_app, find_app_none; [reflexivity|].
  cbn [Nat.add]. rewrite find_seq_find_if by lia.
  now rewrite Hnone, Nat.eqb_refl.
Qed.

Lemma first_hit_ext f g from upto v :
  (forall a, f a = g a) -> first_hit f from upto v = first_hit g from upto v.
Proof.
  intro H. unfold first_hit. generalize (seq from (upto - from)) as l.
  induction l as [|i l IH]; [reflexivity|].
  cbn. destruct (nth_error v i) as [a|]; [rewrite H|]; now rewrite IH.
Qed.

(** [searchpackages] from the test of the phrase on: where the focus
    goes. *)
Lemma search_tail_focus (p0 : Program) phrase :
  is_empty phrase = false ->
  focusedindex (list_pane p0) < List.length (filteredpackages p0) ->
  let v := filteredpackages p0 in
  let pred := fun a => FilterH.matches (attrlist p0) a phrase in
  let begin := search_begin p0 in
  exists p',
    (if List.length v <? begin then Undefined
     else
       let it := Vec.find_if pred begin v in
       let it := if (it =? List.length v) && negb (begin =? 0)
                 then Vec.find_if pred 0 v else it in
       if it =? List.length v then Ok p0
       else Ok (set_list_pane (Box.moveabs it (List.length v)) p0)) = Ok p' /\
    filteredpackages p' = v /\
    match first_hit pred begin (List.length v) v with
    | Some i => focusedindex (list_pane p') = i
    | None => match first_hit pred 0 begin v with
              | Some i => focusedindex (list_pane p') = i
              | None => list_pane p' = list_pane p0
              end
    end.
Proof.
  intros Hne Hfocus. cbv zeta. unfold search_begin.
  set (v := filteredpackages p0) in *.
  set (b := focusedindex (list_pane p0) + 1).
  set (pred := fun a => FilterH.matches (attrlist p0) a phrase).
  assert (Hb : b <= List.length v) by (unfold b; lia).
  replace (List.length v <? b) with false
    by (symmetry; apply Nat.ltb_ge; exact Hb).
  replace (b =? 0) with false
    by (symmetry; apply Nat.eqb_neq; unfold b; lia).
  rewrite (first_hit_from pred b v Hb).
  destruct (Vec.find_if pred b v =? List.length v) eqn:E1; cbn [andb negb].
  - apply Nat.eqb_eq in E1. rewrite (first_hit_wrap pred b v Hb E1).
    destruct (Vec.find_if pred 0 v =? List.length v) eqn:E0.
    + exists p0. repeat split.
    + apply Nat.eqb_neq in E0.
      destruct (find_if_hit pred 0 v (Nat.le_0_l _) E0) as [Hlt _].
      eexists. split; [reflexivity|]. split; [reflexivity|].
      unfold set_list_pane, Box.moveabs. cbn [list_pane focusedindex]. lia.
  - rewrite E1. apply Nat.eqb_neq in E1.
    destruct (find_if_hit pred b v Hb E1) as [Hlt _].
    eexists. split; [reflexivity|]. split; [reflexivity|].
    unfold set_list_pane, Box.moveabs. cbn [list_pane focusedindex]. lia.
Qed.

(** C2.  A committed search with a non-empty phrase, in a View with the
    focus on one of its entries, leaves the View as it is and looks for
    the first entry behind the focused one that has the phrase in the
    text of an active attribute, letter case aside, which are the
    entries the exclusion predicate of the filter does not hold for; if
    there is none up to the end it looks for the first such entry from
    the start of the View up to the focused one.  The focus moves to the
    index of the entry found, and stays where it is when there is
    none. *)
Theorem search_finds_next_mention str p :
  is_empty (search_phrase str) = false ->
  focusedindex (list_pane p) < List.length (filteredpackages p) ->
  let v := filteredpackages p in
  let start := focusedindex (list_pane p) + 1 in
  let attrs := match split_search str with
               | Some (fieldlist, _) => Filter.setattrs fieldlist
               | None => Filter.clearattrs
               end in
  let hits := fun a => mentioned_in attrs a (search_phrase str) in
  (forall a, hits a = negb (FilterH.notmatches attrs a (search_phrase str))) /\
  exists p',
    searchpackages str p = Ok p' /\ filteredpackages p' = v /\
    match first_hit hits start (List.length v) v with
    | Some i => focusedindex (list_pane p') = i
    | None => match first_hit hits 0 start v with
              | Some i => focusedindex (list_pane p') = i
              | None => list_pane p' = list_pane p
              end
    end.
Proof.
  intros Hne Hfocus. cbv zeta. split.
  { intro a. unfold FilterH.notmatches, Filter.matches.
    now rewrite found_in_mentioned, negb_involutive. }
  unfold searchpackages, search_phrase in *.
  destruct (split_search str) as [[fl phrase]|]; rewrite Hne;
    match goal with
    | |- context [FilterH.matches (attrlist ?q) _ ?ph] =>
        destruct (search_tail_focus q ph Hne Hfocus) as (p' & Hp' & Hv & Hf)
    end;
    exists p'; (split; [exact Hp'|]); (split; [exact Hv|]);
    erewrite (first_hit_ext _ (fun a => FilterH.matches _ a _)),
             (first_hit_ext _ (fun a => FilterH.matches _ a _) 0);
    try exact Hf;
    intro a; symmetry; apply found_in_mentioned.
Qed.

Lemma first_attr_skips junk c rest :
  Str.forallb (fun x => attr_eqb (chartoattr x) A_NONE) junk = true ->
  chartoattr c <> A_NONE ->
  first_attr (junk ++ String c rest) = chartoattr c.
Proof.
  intros Hj Hc. induction junk as [|x junk IH]; cbn in *.
  - destruct (attr_eqb (chartoattr c) A_NONE) eqn:E; [|reflexivity].
    apply attr_eqb_eq in E. congruence.
  - apply andb_prop in Hj as [Hx Hj]. rewrite Hx. now apply IH.
Qed.

(** X19.  Sort and colorcode take the attribute of the first character
    of their input that stands for one: characters before it that stand
    for none are skipped, and whatever follows it is ignored. *)
Theorem first_valid_character_decides junk c rest p :
  Str.forallb (fun x => attr_eqb (chartoattr x) A_NONE) junk = true ->
  chartoattr c <> A_NONE ->
  sortedby (sortpackages (junk ++ String c rest) p) = chartoattr c /\
  coloredby (colorcodepackages (junk ++ String c rest) p) = chartoattr c.
Proof.
  intros Hj Hc. pose proof (first_attr_skips junk c rest Hj Hc) as Hf.
  assert (Hl : (String.length (junk ++ String c rest) <? 1) = false).
  { rewrite length_app_s. cbn [String.length]. apply Nat.ltb_ge. lia. }
  assert (He : attr_eqb (chartoattr c) A_NONE = false).
  { destruct (attr_eqb (chartoattr c) A_NONE) eqn:E; [|reflexivity].
    apply attr_eqb_eq in E. congruence. }
  unfold sortpackages, colorcodepackages. rewrite Hl, Hf, He.
  split; reflexivity.
Qed.

End OrderFacts.

(** ** The info pane *)

Section CaptionFacts.

Lemma caption_after_key lo up s :
  caption_styles lo up true s
  = map (fun ch => (ch, C_DEF_HL2)) (list_ascii_of_string s).
Proof. induction s as [|ch t IH]; cbn; [reflexivity|]. now rewrite IH. Qed.

(** X18.  [printinfosection] prints the caption of an attribute with
    exactly one character set off in the default style, the first one
    that is the key of the attribute in lower or upper case, and every
    other character in the highlight style; a caption without the key is
    all in the highlight style. *)
Theorem caption_highlights_first_key hllower caption :
  (forall pre ch post,
     caption = (pre ++ String ch post)%string ->
     is_key hllower ch = true ->
     Str.forallb (fun x => negb (is_key hllower x)) pre = true ->
     printed_caption hllower caption
     = map (fun x => (x, C_DEF_HL2)) (list_ascii_of_string pre)
       ++ (ch, C_DEF) :: map (fun x => (x, C_DEF_HL2)) (list_ascii_of_string post)) /\
  (Str.forallb (fun x => negb (is_key hllower x)) caption = true ->
   printed_caption hllower caption
   = map (fun x => (x, C_DEF_HL2)) (list_ascii_of_string caption)).
Proof.
  unfold printed_caption, is_key. split.
  - intros pre ch post -> Hkey. induction pre as [|x pre IH]; intro Hpre.
    + cbn. rewrite Hkey. cbn. now rewrite caption_after_key.
    + cbn in Hpre. apply andb_prop in Hpre as [Hx Hpre].
      apply negb_true_iff in Hx. cbn. rewrite Hx. cbn. now rewrite IH.
  - induction caption as [|x t IH]; intro Hall; [reflexivity|].
    cbn in Hall. apply andb_prop in Hall as [Hx Hall].
    apply negb_true_iff in Hx. cbn. rewrite Hx. cbn. now rewrite IH.
Qed.

End CaptionFacts.

(* ================================================================== *)
(** * Runs in the sample environment *)

Import Sample.

Lemma filter_keeps_witness :
  filteredpackages (filterpackages "d:nu" started) = [bash] /\
  filteredpackages (filterpackages "n:bash" started) = [bash] /\
  filteredpackages (filterpackages "n!:bash" started) = [fish; zsh].
Proof.
  pose (needle := mkRe true [(Chr "b", false); (Chr "a", false);
                             (Chr "s", false); (Chr "h", false)]).
  split; [|split].
  - refine (eq_trans
              (proj1 (filter_keeps_what_is_not_excluded "d:nu" started
                        "d" "" "nu" eq_refl eq_refl) eq_refl) _).
    vm_compute. reflexivity.
  - refine (eq_trans
              (proj2 (filter_keeps_what_is_not_excluded "n:bash" started
                        "n" "" "bash" eq_refl eq_refl)
                 needle eq_refl eq_refl) _).
    vm_compute. reflexivity.
  - refine (eq_trans
              (proj2 (filter_keeps_what_is_not_excluded "n!:bash" started
                        "n" "!" "bash" eq_refl eq_refl)
                 needle eq_refl eq_refl) _).
    vm_compute. reflexivity.
Defined.

Lemma search_finds_witness :
  (exists p',
     searchpackages "sh" started = Ok p' /\ focusedindex (list_pane p') = 1) /\
  (exists p',
     searchpackages "n:bash" at_end = Ok p' /\
     focusedindex (list_pane p') = 0).
Proof.
  split.
  - assert (H : focusedindex (list_pane started)
                < List.length (filteredpackages started))
      by (vm_compute; repeat constructor).
    destruct (search_finds_next_mention "sh" started eq_refl H)
      as (_ & p' & Hp' & _ & Hf).
    exists p'. split; [exact Hp'|]. vm_compute in Hf. exact Hf.
  - assert (H : focusedindex (list_pane at_end)
                < List.length (filteredpackages at_end))
      by (vm_compute; repeat constructor).
    destruct (search_finds_next_mention "n:bash" at_end eq_refl H)
      as (_ & p' & Hp' & _ & Hf).
    exists p'. split; [exact Hp'|]. vm_compute in Hf. exact Hf.
Defined.

Lemma sort_orders_witness :
  sortedby (sortpackages "d" started) = A_DESC /\
  filteredpackages (sortpackages "d" started) = [zsh; fish; bash].
Proof.
  assert (Ha : first_attr "d" = A_DESC) by reflexivity.
  destruct (sort_orders_by_attribute "d" started A_DESC Ha) as (Hs & Hv & _).
  { discriminate. }
  split; [exact Hs|]. rewrite Hv. vm_compute. reflexivity.
Defined.

(** C5.  The pattern that decides between the two ways of filtering is
    compiled from the text [[:alnum:]+], which is one bracket
    expression, repeated: the set of the colon and the letters a, l, n,
    u and m.  The phrase [bash] is alphanumeric throughout and is not
    matched by it, so the filter [n:bash] compiles the phrase and
    removes by pattern search; the phrase [a:] is not alphanumeric and
    is matched, so the filter [n:a:] takes it as a literal substring. *)
Theorem alnum_phrase_is_compiled :
  compile "[:alnum:]+" = Some resimple /\
  re_items resimple
  = [(Among [":"; "a"; "l"; "n"; "u"; "m"; ":"]%char, true)] /\
  split_filter "n:bash" = ("n", "", "bash") /\
  Str.alnum_only "bash" = true /\
  regex_match "bash" resimple = false /\
  filteredpackages (filterpackages "n:bash" started) = [bash] /\
  filteredpackages (filterpackages "n:BASH" started) = [bash] /\
  (forall neg attrs v,
     filter_view neg "bash" attrs v
     = option_map
         (fun needle =>
            Vec.remove_loop
              (fun a => (if is_empty neg then FilterH.notmatchesre
                         else FilterH.matchesre) attrs a needle) v)
         (compile_icase "bash")) /\
  split_filter "n:a:" = ("n", "", "a:") /\
  Str.alnum_only "a:" = false /\
  regex_match "a:" resimple = true /\
  (forall neg attrs v,
     filter_view neg "a:" attrs v
     = Some (Vec.remove_loop
               (fun a => (if is_empty neg then FilterH.notmatches
                          else FilterH.matches) attrs a "a:") v)).
Proof. repeat split; intros; vm_compute; reflexivity. Qed.

Lemma invalid_pattern_witness :
  filteredpackages (filterpackages "n:[ba" started) = filteredpackages started /\
  searchphrases (filterpackages "n:[ba" started) = searchphrases started.
Proof.
  apply (invalid_pattern_keeps_view_and_description "n:[ba" started "n" "" "[ba");
    reflexivity.
Defined.

(** C6, the claim as stated fails: after the filter [n:sh] the selection
    is the name alone, and the bare filter [zsh] that follows does not
    leave it so. *)
Lemma filter_selection_counterexample :
  let p := filterpackages "n:sh" started in
  fst (fst (split_filter "zsh")) = "" /\
  attrlist p = [A_NAME] /\
  attrlist (filterpackages "zsh" p) <> attrlist p.
Proof. vm_compute. repeat split; try reflexivity. discriminate. Qed.

Lemma search_start_witness :
  filteredpackages (filterpackages "n:qqq" started) = [] /\
  searchpackages "bash" (filterpackages "n:qqq" started) = Undefined.
Proof.
  assert (H : filteredpackages (filterpackages "n:qqq" started) = [])
    by (vm_compute; reflexivity).
  split; [exact H|].
  exact (proj2 (proj2 (proj2 (search_start_needs_entry "bash"
                                (filterpackages "n:qqq" started) eq_refl))
                  H)).
Defined.

Lemma filter_selection_witness :
  attrlist (filterpackages "n:sh" started) = [A_NAME].
Proof. exact (filter_selection_after "n:sh" started "n" "" "sh" eq_refl). Defined.

Lemma sample_names : NoDup (map getname alpm_packages).
Proof. repeat constructor; simpl; intuition discriminate. Qed.

Lemma at_end_reachable : reachable at_end.
Proof.
  apply reach_step with (fuel := 1) (ch := KEY_END) (p := started).
  - apply reach_init with (fuel := 1). vm_compute. reflexivity.
  - vm_compute. reflexivity.
Qed.

Lemma queue_witness :
  NoDup (map getname (opqueue at_end)) /\
  In zsh (opqueue queued) /\
  mainloop_step 1 KEY_RIGHT queued = Ok queued.
Proof.
  destruct (queue_has_no_duplicates at_end sample_names at_end_reachable)
    as (Hnames & _ & Hright).
  destruct (Hright 1 zsh queued eq_refl eq_refl eq_refl eq_refl)
    as [Hin Hagain].
  exact (conj Hnames
           (conj Hin (Hagain queued eq_refl eq_refl eq_refl))).
Defined.

Lemma macro_part_witness :
  bind (mainloop 3 (typed "/" "n:bash") started)
       (macro_loop (exitinputmode 3) [])
  = macro_loop (exitinputmode 3) ["1"] started.
Proof.
  refine (proj2 (proj1 (macro_part_as_typed 3 "1" [] started)
                   "/"%char "n:bash" eq_refl eq_refl eq_refl _) eq_refl).
  discriminate.
Defined.

(** C8, the claim as stated fails.  The macro 1 of the sample table and
    the typed filter lead to states that differ in the Macro history; and
    the part alone, run after an earlier filter, leaves the browse cursor
    of the Filter history where typing does not. *)
Lemma macro_part_counterexample :
  macros_find "1" (macros started) = Some "/n:bash" /\
  (exists p1 p2,
     mainloop 3 [Char "1"] started = Ok p1 /\
     mainloop 3 (typed "/" "n:bash") started = Ok p2 /\
     his_v (hismacro p1) = ["startup"; "1"] /\
     his_v (hismacro p2) = ["startup"]) /\
  (exists p1 p2,
     macro_loop (exitinputmode 3) ["1"] filtered_once = Ok p1 /\
     mainloop 3 (typed "/" "n:bash") filtered_once = Ok p2 /\
     hisfilter p1 = mkHistory ["fish"; "n:bash"] 0 /\
     hisfilter p2 = mkHistory ["fish"; "n:bash"] 1).
Proof.
  split; [reflexivity|]. split; eexists; eexists;
    (split; [vm_compute; reflexivity|]);
    (split; [vm_compute; reflexivity|]); split; reflexivity.
Qed.

Lemma exec_substitution_witness :
  execmd 12 "pacman -S %p" queued
  = ran "pacman -S %p" "pacman -S zsh " queued.
Proof.
  refine (proj2 (proj1 (exec_substitution "pacman -S %p" queued) _)
            (or_introl (conj _ eq_refl)) 12 (le_n _)).
  - intros a [<-|[]]. reflexivity.
  - discriminate.
Defined.

(** C9.  The loop of [execmd] looks for the next token in the string it
    has substituted into, not behind what it put there.  With an empty
    Queue the command [echo %%pp] is run as [echo], though its one token
    replaced by the empty name list leaves [echo %p]; with perl queued,
    whose name does not contain the token, the command [echo %%p] is run
    with the name list put in a second time, short of its first
    letter. *)
Theorem exec_rescans_substituted_text :
  opqueue started = [] /\
  execmd 9 "echo %%pp" started = ran "echo %%pp" "echo " started /\
  replace_all (pkgs_of (opqueue started)) "echo %%pp" = "echo %p" /\
  contains "%p" (getname perl) = false /\
  execmd 8 "echo %%p" (set_opqueue [perl] started)
  = ran "echo %%p" "echo perl erl " (set_opqueue [perl] started) /\
  replace_all (pkgs_of [perl]) "echo %%p" = "echo %perl ".
Proof. vm_compute. repeat split; reflexivity. Qed.

Lemma queued_reachable : reachable queued.
Proof.
  apply reach_step with (fuel := 1) (ch := KEY_RIGHT) (p := at_end).
  - exact at_end_reachable.
  - vm_compute. reflexivity.
Qed.

Lemma queue_focused_reachable : reachable queue_focused.
Proof.
  apply reach_step with (fuel := 1) (ch := KEY_TAB) (p := queued).
  - exact queued_reachable.
  - vm_compute. reflexivity.
Qed.

Lemma histories_only_grow_witness :
  exists l, his_v (gethis OP_FILTER filtered_once)
            = his_v (gethis OP_FILTER started) ++ l.
Proof.
  refine (histories_only_grow 1 (typed "/" "fish") started filtered_once _
            OP_FILTER).
  vm_compute. reflexivity.
Defined.

Lemma entering_reachable : reachable entering.
Proof.
  apply reach_step with (fuel := 1) (ch := Char "/") (p := started).
  - apply reach_init with (fuel := 1). vm_compute. reflexivity.
  - vm_compute. reflexivity.
Qed.

Lemma pending_operation_witness :
  mode entering = MODE_INPUT /\ op entering = OP_FILTER /\
  (mode entering = MODE_INPUT <-> op entering <> OP_NONE).
Proof.
  split; [vm_compute; reflexivity|]. split; [vm_compute; reflexivity|].
  exact (pending_operation_iff_input entering entering_reachable).
Defined.

Lemma queue_focus_witness :
  focused_pane queue_focused = FE_QUEUE /\ opqueue queue_focused <> [].
Proof.
  assert (H : focused_pane queue_focused = FE_QUEUE)
    by (vm_compute; reflexivity).
  exact (conj H (queue_focus_needs_entry queue_focused
                   queue_focused_reachable H)).
Defined.

Lemma view_and_queue_witness :
  incl (filteredpackages queued) (packages queued) /\
  incl (opqueue queued) (packages queued) /\
  packages queued = alpm_packages.
Proof. exact (view_and_queue_within_catalog queued queued_reachable). Defined.

Lemma empty_commit_witness :
  exitinputmode 1 OP_FILTER started = exitinputmode 1 OP_NONE started /\
  exitinputmode 2 OP_FILTER started
  = Ok (set_op OP_NONE (set_mode MODE_STANDARD started)).
Proof. exact (empty_commit_is_cancel 1 OP_FILTER started eq_refl). Defined.

Lemma exitinputmode_witness :
  let p := set_inputbuf (Buf.set "fish") started in
  mode filtered_once = MODE_STANDARD /\ op filtered_once = OP_NONE /\
  opqueue filtered_once = opqueue p /\ packages filtered_once = packages p /\
  incl (filteredpackages filtered_once) (filteredpackages p).
Proof.
  refine (exitinputmode_returns_to_standard 1 OP_FILTER
            (set_inputbuf (Buf.set "fish") started) filtered_once _).
  vm_compute. reflexivity.
Defined.

Lemma self_calling_macro_witness :
  execmacro 5 "loop" looping = OutOfFuel.
Proof.
  refine (self_calling_macro_never_returns "loop" looping _ eq_refl eq_refl
            eq_refl 5).
  discriminate.
Defined.

Lemma reload_witness :
  exists p',
    mainloop_step 2 (Char "r") queued = Ok p' /\
    opqueue p' = [] /\ packages p' = alpm_packages /\
    macros p' = conf_macros /\
    filteredpackages p'
    = Vec.sort (fun a b => FilterH.cmp a b (sortedby p')) alpm_packages /\
    searchphrases p' = "" /\ focusedindex (list_pane p') = 0.
Proof.
  destruct (mainloop_step 2 (Char "r") queued) as [p'| |] eqn:H;
    [|vm_compute in H; discriminate..].
  exists p'. split; [reflexivity|].
  apply (reload_result 2 queued p' eq_refl H).
Defined.

Lemma search_outcome_witness :
  exists p',
    searchpackages "zsh" started = Ok p' /\
    filteredpackages p' = filteredpackages started /\
    opqueue p' = opqueue started.
Proof.
  destruct (searchpackages "zsh" started) as [p'| |] eqn:H;
    [|vm_compute in H; discriminate..].
  exists p'. split; [reflexivity|].
  destruct (search_outcome "zsh" started p' H) as (Hv & Hq & _). now split.
Defined.

Lemma search_selection_witness :
  exists p',
    searchpackages "d:shell" started = Ok p' /\ attrlist p' = [A_DESC].
Proof.
  destruct (searchpackages "d:shell" started) as [p'| |] eqn:H;
    [|vm_compute in H; discriminate..].
  exists p'. split; [reflexivity|].
  exact (search_selection_after "d:shell" started p' H).
Defined.

Lemma sort_without_attribute_witness :
  sortedby (sortpackages "x" started) = sortedby started /\
  filteredpackages (sortpackages "x" started) = filteredpackages started.
Proof.
  assert (Ha : first_attr "x" = A_NONE) by reflexivity.
  exact (sort_without_attribute "x" started Ha).
Defined.

Lemma first_valid_character_witness :
  sortedby (sortpackages "x-d n" started) = A_DESC /\
  coloredby (colorcodepackages "x-d n" started) = A_DESC.
Proof.
  refine (first_valid_character_decides "x-" "d" " n" started eq_refl _).
  discriminate.
Defined.
